(** * Identifying Musical Intervals: the round state machine of [script.js]

    A shallow embedding of the control plane of [src/script.js]: the pitch
    model and interval catalog, question generation, the asynchronous
    playback routine [playCurrentInterval] with its play tokens and its
    deferred enable-answers callback, answer handling and the score.

    Conventions of the embedding.
    - JavaScript numbers that hold integers (pitches, counters, tokens,
      indices) are [Z]; the one place where the 53-bit mantissa of a double
      matters, the increment of [lastPlayToken], is written out ([jsIncr]).
      The integers of the model are what the doubles hold as long as every
      value stays below 2^53 in magnitude; a statement about arithmetic on
      arbitrary pitches carries the bound it needs for that.
    - Times are exact rationals [Q] (seconds on the audio clock); the code
      computes them in doubles.
    - [Math.random()] is an argument [r : Q] of the function that calls it;
      its contract is [0 <= r < 1].  The product of a draw and a count is
      taken exactly; the code's product is rounded to a double, stays below
      the count, and can land in the next bucket for a draw within rounding
      of a bucket boundary.
    - An [async] function is cut at each [await]: the part up to the first
      [await] is a function on [State] that leaves a [Task] behind, and every
      later part is the continuation that runs when the task is resumed.
      Timers armed with [setTimeout] are kept in the state as well.
    - Writes to the DOM (feedback text, button marks, the mini keyboard, the
      score panel) are presentation only and are left out; audio commands
      and [console.warn] calls are kept as output logs.  The buttons that
      only open or close a dialog or download the scorecard reach none of
      the variables kept here and have no event.
    - What the presentation code computes is embedded as functions of its
      own, beside the machine: the root options of the settings form, the
      [disabled] flags of the controls, the drawing of the mini keyboard,
      and (module [Frame]) the height and scroll messages the embedded page
      posts to its parent. *)

From Stdlib Require Import ZArith QArith Qround Qabs Qminmax Lqa String Ascii
  List Bool Lia.
Import ListNotations.

Open Scope Z_scope.

(* ------------------------------------------------------------------ *)
(** ** JavaScript values, [String(v)] and [parseInt(s, 10)] *)

Module Js.

(** The values a settings field can hold.  [JNum z] is an integer-valued
    number; [String] prints it in plain decimal digits, which is what
    JavaScript does below [10^21] in absolute value. *)
Inductive Value :=
| JNum (z : Z)
| JNaN
| JStr (s : string)
| JUndefined
| JNull.

(** Result of [parseInt]: a finite integer, [NaN] or an infinity. *)
Inductive Number :=
| Finite (z : Z)
| NaN
| Infinite.

Definition digitChar (d : Z) : ascii := ascii_of_nat (48 + Z.to_nat d).

Definition digitValue (c : ascii) : option Z :=
  let n := Z.of_nat (nat_of_ascii c) in
  if (48 <=? n) && (n <=? 57) then Some (n - 48) else None.

Arguments digitChar : simpl never.
Arguments digitValue : simpl never.

(** Decimal digits of a non-negative integer, most significant first,
    pushed in front of [acc]. *)
Fixpoint digitsToString (fuel : nat) (n : Z) (acc : string) : string :=
  match fuel with
  | O => acc
  | S f =>
      let acc' := String (digitChar (n mod 10)) acc in
      if n / 10 =? 0 then acc' else digitsToString f (n / 10) acc'
  end.

Definition decimal (n : Z) : string :=
  digitsToString (S (Z.to_nat (Z.log2 n))) n EmptyString.

(** [Number::toString] on an integer. *)
Definition NumberToString (z : Z) : string :=
  if z <? 0 then String "-" (decimal (- z)) else decimal z.

(** [String(v)]. *)
Definition ToString (v : Value) : string :=
  match v with
  | JNum z => NumberToString z
  | JNaN => "NaN"
  | JStr s => s
  | JUndefined => "undefined"
  | JNull => "null"
  end.

(** White space skipped by [parseInt].  A character of a [string] stands
    for a code unit below 256; of StrWhiteSpaceChar that leaves TAB, LF, VT,
    FF, CR, SP and NBSP. *)
Definition isWhiteSpace (c : ascii) : bool :=
  let n := nat_of_ascii c in
  ((9 <=? n) && (n <=? 13))%nat || (n =? 32)%nat || (n =? 160)%nat.

Fixpoint trimStart (s : string) : string :=
  match s with
  | String c s' => if isWhiteSpace c then trimStart s' else s
  | EmptyString => s
  end.

(** Value of the longest prefix of decimal digits, continuing from [acc]. *)
Fixpoint parseDigits (acc : Z) (s : string) : Z :=
  match s with
  | String c s' =>
      match digitValue c with
      | Some d => parseDigits (acc * 10 + d) s'
      | None => acc
      end
  | EmptyString => acc
  end.

Definition startsWithDigit (s : string) : bool :=
  match s with
  | String c _ => match digitValue c with Some _ => true | None => false end
  | EmptyString => false
  end.

(** Integers from here on round to an infinite double. *)
Definition overflowBound : Z := 2 ^ 1024 - 2 ^ 970.

(** [Number.parseInt(s, 10)]: skip white space, read an optional sign, then
    the longest run of digits; [NaN] when there is no digit. *)
Definition parseInt10 (s : string) : Number :=
  let s1 := trimStart s in
  let '(sign, s2) :=
    match s1 with
    | String "-" r => (-1, r)
    | String "+" r => (1, r)
    | _ => (1, s1)
    end in
  if startsWithDigit s2 then
    let m := parseDigits 0 s2 in
    if overflowBound <=? m then Infinite else Finite (sign * m)
  else NaN.

(** [Array.prototype.slice(start, end)] on a list. *)
Definition slice {A : Type} (start end_ : Z) (l : list A) : list A :=
  let len := Z.of_nat (length l) in
  let rel i := if i <? 0 then Z.max (len + i) 0 else Z.min i len in
  let k := rel start in
  let final := rel end_ in
  firstn (Z.to_nat (final - k)) (skipn (Z.to_nat k) l).

(** [Math.round]: nearest integer, ties towards plus infinity. *)
Definition round (x : Q) : Z := Qfloor (x + (1 # 2)).

(** Doubles hold every integer up to [2^53]; [2^53 + 1] rounds back to
    [2^53], so [++n] stops growing there. *)
Definition maxExact : Z := 2 ^ 53.

Definition jsIncr (n : Z) : Z := if n <? maxExact then n + 1 else n.

End Js.

Import Js.

(* ------------------------------------------------------------------ *)
(** ** Constants, pitch model and interval catalog *)

Definition pcFromPitch (p : Z) : Z := Z.rem (Z.rem p 12 + 12) 12.

Definition octFromPitch (p : Z) : Z := p / 12.

Definition pitchFromPcOct (pc oct : Z) : Z := oct * 12 + pc.

Definition MIN_PITCH : Z := pitchFromPcOct 0 3.
Definition MAX_PITCH : Z := pitchFromPcOct 0 5.

Definition NOTE_PLAY_SEC : Q := 115 # 100.
Definition GAP_SEC : Q := 18 # 100.
Definition ROUND_START_DELAY_SEC : Q := 25 # 100.

Definition AUDIO_DIR : string := "audio".
Definition SND_CORRECT : string := "correct1.mp3".
Definition SND_INCORRECT : string := "incorrect1.mp3".

Definition PC_TO_STEM : list string :=
  ["c"; "csharp"; "d"; "dsharp"; "e"; "f"; "fsharp"; "g"; "gsharp"; "a";
   "asharp"; "b"]%string.

Definition PC_NAMES_SHARP : list string :=
  ["C"; "C#"; "D"; "D#"; "E"; "F"; "F#"; "G"; "G#"; "A"; "A#"; "B"]%string.

Definition PC_NAMES_FLAT : list string :=
  ["C"; "Db"; "D"; "Eb"; "E"; "F"; "Gb"; "G"; "Ab"; "A"; "Bb"; "B"]%string.

Record Interval := mkInterval {
  code : string;
  name : string;
  semitones : Z
}.

Definition IVL_ALL : list Interval :=
  [ mkInterval "m2" "minor second" 1;
    mkInterval "M2" "major second" 2;
    mkInterval "m3" "minor third" 3;
    mkInterval "M3" "major third" 4;
    mkInterval "P4" "perfect fourth" 5;
    mkInterval "A4/d5" "tritone" 6;
    mkInterval "P5" "perfect fifth" 7;
    mkInterval "m6" "minor sixth" 8;
    mkInterval "M6" "major sixth" 9;
    mkInterval "m7" "minor seventh" 10;
    mkInterval "M7" "major seventh" 11;
    mkInterval "P8" "perfect octave" 12 ].

(** Indexing an array or an object by an integer; [None] is [undefined]. *)
Definition index {A : Type} (l : list A) (i : Z) : option A :=
  if i <? 0 then None else nth_error l (Z.to_nat i).

Definition getStemForPc (pc : Z) : option string :=
  index PC_TO_STEM (Z.rem (pc + 12) 12).

Definition isAccidental (pc : Z) : bool :=
  existsb (Z.eqb pc) [1; 3; 6; 8; 10].

(** An [undefined] table entry is printed as the text "undefined". *)
Definition orUndefined (o : option string) : string :=
  match o with Some s => s | None => "undefined"%string end.

Definition pitchLabel (pitch : Z) : string :=
  let pc := pcFromPitch pitch in
  let oct := octFromPitch pitch in
  let sharp := (orUndefined (index PC_NAMES_SHARP pc) ++ NumberToString oct)%string in
  if negb (isAccidental pc) then sharp
  else (sharp ++ " / " ++ orUndefined (index PC_NAMES_FLAT pc) ++ NumberToString oct)%string.

Definition noteUrl (stem : string) (octaveNum : Z) : string :=
  (AUDIO_DIR ++ "/" ++ stem ++ NumberToString octaveNum ++ ".mp3")%string.

(* ------------------------------------------------------------------ *)
(** ** Session state *)

Record AnswerEvent := mkAnswerEvent {
  ev_ts : string;
  ev_root : string;
  ev_high : string;
  ev_interval : string;
  ev_guess : string;
  ev_correct : bool;
  ev_mode : string;
  ev_intervalCount : Value
}.

Record Score := mkScore {
  asked : Z;
  correct : Z;
  incorrect : Z;
  streak : Z;
  longest : Z;
  history : list AnswerEvent
}.

(** [fixedRootPitch] is an integer pitch: the form offers only the options
    [String(p)] for integers [p], which [parseInt] reads back as [p]. *)
Record Settings := mkSettings {
  intervalCount : Value;
  rootMode : string;
  fixedRootPitch : Z
}.

Record Question := mkQuestion {
  rootPitch : Z;
  highPitch : Z;
  interval : Interval
}.

(** What [loadPitchBuffer] resolves to; a decoded buffer is identified by
    the URL it was fetched from. *)
Record LoadResult := mkLoadResult {
  missingUrl : option string;
  buffer : option string;
  pitch : Z
}.

(** Commands sent to the audio layer, in the order they are issued. *)
Inductive AudioCmd :=
| StopUiSounds
| StopAllNotes (fadeSec : Q)
| PlayBufferWindowed (buf : string) (whenSec playSec fadeOutSec gain : Q)
| PlaySynthToneWindowed (p : Z) (whenSec playSec fadeOutSec gain : Q)
| PlayUiSound (filename : string).

(** A suspended [async] function, named after the [await] it waits at. *)
Inductive Task :=
| AwaitFrame
| AwaitResume (token : Z) (allowAnswerAfter : bool) (delaySec : Q)
| AwaitLoads (token : Z) (allowAnswerAfter : bool) (t0 : Q) (p1 p2 : Z).

(** A pending [setTimeout] of the enable-answers callback: the token the
    closure captured, the audio-clock time it was armed at and its delay. *)
Record Timer := mkTimer {
  tmToken : Z;
  tmArmedAt : Q;
  tmDelayMs : Z
}.

Record State := mkState {
  started : bool;
  canAnswer : bool;
  awaitingNext : bool;
  question : option Question;
  score : Score;
  settings : Settings;
  lastPlayToken : Z;
  synthFallbackWarned : bool;
  tasks : list Task;
  timers : list Timer;
  audioLog : list AudioCmd;
  warnLog : list string
}.

Definition set_started (v : bool) (st : State) : State :=
  mkState v (canAnswer st) (awaitingNext st) (question st) (score st)
    (settings st) (lastPlayToken st) (synthFallbackWarned st) (tasks st)
    (timers st) (audioLog st) (warnLog st).

Definition set_canAnswer (v : bool) (st : State) : State :=
  mkState (started st) v (awaitingNext st) (question st) (score st)
    (settings st) (lastPlayToken st) (synthFallbackWarned st) (tasks st)
    (timers st) (audioLog st) (warnLog st).

Definition set_awaitingNext (v : bool) (st : State) : State :=
  mkState (started st) (canAnswer st) v (question st) (score st)
    (settings st) (lastPlayToken st) (synthFallbackWarned st) (tasks st)
    (timers st) (audioLog st) (warnLog st).

Definition set_question (v : option Question) (st : State) : State :=
  mkState (started st) (canAnswer st) (awaitingNext st) v (score st)
    (settings st) (lastPlayToken st) (synthFallbackWarned st) (tasks st)
    (timers st) (audioLog st) (warnLog st).

Definition set_score (v : Score) (st : State) : State :=
  mkState (started st) (canAnswer st) (awaitingNext st) (question st) v
    (settings st) (lastPlayToken st) (synthFallbackWarned st) (tasks st)
    (timers st) (audioLog st) (warnLog st).

Definition set_settings (v : Settings) (st : State) : State :=
  mkState (started st) (canAnswer st) (awaitingNext st) (question st)
    (score st) v (lastPlayToken st) (synthFallbackWarned st) (tasks st)
    (timers st) (audioLog st) (warnLog st).

Definition set_lastPlayToken (v : Z) (st : State) : State :=
  mkState (started st) (canAnswer st) (awaitingNext st) (question st)
    (score st) (settings st) v (synthFallbackWarned st) (tasks st)
    (timers st) (audioLog st) (warnLog st).

Definition set_tasks (v : list Task) (st : State) : State :=
  mkState (started st) (canAnswer st) (awaitingNext st) (question st)
    (score st) (settings st) (lastPlayToken st) (synthFallbackWarned st) v
    (timers st) (audioLog st) (warnLog st).

Definition set_timers (v : list Timer) (st : State) : State :=
  mkState (started st) (canAnswer st) (awaitingNext st) (question st)
    (score st) (settings st) (lastPlayToken st) (synthFallbackWarned st)
    (tasks st) v (audioLog st) (warnLog st).

(** Issue one audio command. *)
Definition emit (c : AudioCmd) (st : State) : State :=
  mkState (started st) (canAnswer st) (awaitingNext st) (question st)
    (score st) (settings st) (lastPlayToken st) (synthFallbackWarned st)
    (tasks st) (timers st) (audioLog st ++ [c]) (warnLog st).

Definition suspend (t : Task) (st : State) : State :=
  set_tasks (tasks st ++ [t]) st.

Definition setTimeout (t : Timer) (st : State) : State :=
  set_timers (timers st ++ [t]) st.

(** How a handler ends: it returns, or an uncaught [TypeError] aborts it and
    the writes made so far stay. *)
Inductive Outcome :=
| Returned (st : State)
| Threw (st : State).

Definition stateOf (o : Outcome) : State :=
  match o with Returned st => st | Threw st => st end.

(** A pure computation that may raise a [TypeError]. *)
Inductive Completion (A : Type) :=
| Normal (a : A)
| TypeError.

Arguments Normal {A} a.
Arguments TypeError {A}.

(** The module-level declarations: [score], [settings] and the [let]s. *)
Definition bootState : State :=
  mkState false false false None
    (mkScore 0 0 0 0 0 [])
    (mkSettings (JNum 12) "random" (pitchFromPcOct 0 4))
    0 false [] [] [] [].

(* ------------------------------------------------------------------ *)
(** ** Settings helpers and question generation *)

(** The [Number.isFinite] test sends [NaN] and the infinities to [lo]. *)
Definition clampInt (v : Value) (lo hi : Z) : Z :=
  match parseInt10 (ToString v) with
  | Finite n => Z.max lo (Z.min hi n)
  | _ => lo
  end.

Definition activeIntervals (s : Settings) : list Interval :=
  let n := clampInt (intervalCount s) 2 (Z.of_nat (length IVL_ALL)) in
  slice 0 n IVL_ALL.

(** [lo] and [hi] are integers at the only call site, so [Math.ceil] and
    [Math.floor] leave them alone; [r] is the value of [Math.random()]. *)
Definition randIntInclusive (r : Q) (lo hi : Z) : Z :=
  let a := lo in
  let b := hi in
  if b <? a then a else a + Qfloor (r * inject_Z (b - a + 1)).

(** [r1] is the draw that picks the interval, [r2] the one that picks a
    random root.  [Normal None] is the [null] result. *)
Definition pickQuestion (r1 r2 : Q) (s : Settings) : Completion (option Question) :=
  let list := activeIntervals s in
  match index list (Qfloor (r1 * inject_Z (Z.of_nat (length list)))) with
  | None => TypeError
  | Some itv =>
      let d := semitones itv in
      let rootPitch :=
        if String.eqb (rootMode s) "random"
        then randIntInclusive r2 MIN_PITCH (MAX_PITCH - d)
        else fixedRootPitch s in
      let highPitch := rootPitch + d in
      if (rootPitch <? MIN_PITCH) || (MAX_PITCH <? rootPitch) then Normal None
      else if (highPitch <? MIN_PITCH) || (MAX_PITCH <? highPitch) then Normal None
      else Normal (Some (mkQuestion rootPitch highPitch itv))
  end.

(* ------------------------------------------------------------------ *)
(** ** Audio, playback and the round handlers *)

(** What the browser and the asset directory provide: whether Web Audio
    exists, and which sample URLs fetch and decode.  [loadBuffer] caches one
    promise per URL, so a URL has one answer for the whole session. *)
Record Env := mkEnv {
  webAudio : bool;
  sampleOk : string -> bool
}.

Definition maxQ (a b : Q) : Q := if Qle_bool b a then a else b.

Definition isNone {A : Type} (o : option A) : bool :=
  match o with None => true | Some _ => false end.

Definition removeAt {A : Type} (i : nat) (l : list A) : list A :=
  firstn i l ++ skipn (S i) l.

Section Handlers.

Variable env : Env.

Definition stopUiSounds (st : State) : State := emit StopUiSounds st.

Definition stopAllNotes (fadeSec : Q) (st : State) : State :=
  if negb (webAudio env) then st else emit (StopAllNotes fadeSec) st.

Definition stopAllAudio (fadeSec : Q) (st : State) : State :=
  stopAllNotes fadeSec (stopUiSounds st).

Definition playUiSound (filename : string) (st : State) : State :=
  emit (PlayUiSound filename) st.

Definition playBufferWindowed (buf : string) (whenSec playSec fadeOutSec gain : Q)
    (st : State) : State :=
  if negb (webAudio env) then st
  else emit (PlayBufferWindowed buf whenSec playSec fadeOutSec gain) st.

Definition playSynthToneWindowed (p : Z) (whenSec playSec fadeOutSec gain : Q)
    (st : State) : State :=
  if negb (webAudio env) then st
  else emit (PlaySynthToneWindowed p whenSec playSec fadeOutSec gain) st.

Definition maybeWarnSynthFallback (url : string) (st : State) : State :=
  if synthFallbackWarned st then st
  else
    mkState (started st) (canAnswer st) (awaitingNext st) (question st)
      (score st) (settings st) (lastPlayToken st) true (tasks st)
      (timers st) (audioLog st) (warnLog st ++ [url]).

(** The value [loadPitchBuffer(pitch)] resolves to. *)
Definition loadPitchBuffer (p : Z) : LoadResult :=
  let pc := pcFromPitch p in
  let oct := octFromPitch p in
  match getStemForPc pc with
  | None => mkLoadResult (Some "(unknown)"%string) None p
  | Some stem =>
      let url := noteUrl stem oct in
      if negb (webAudio env && sampleOk env url)
      then mkLoadResult (Some url) None p
      else mkLoadResult None (Some url) p
  end.

Definition lockAfterAnswer (st : State) : State :=
  set_awaitingNext true (set_canAnswer false st).

(** [playCurrentInterval] up to [await resumeAudioIfNeeded()]. *)
Definition playCurrentInterval (allowAnswerAfter : bool) (delaySec : Q)
    (st : State) : State :=
  if negb (started st) || isNone (question st) then st
  else
    let token := jsIncr (lastPlayToken st) in
    let st := set_lastPlayToken token st in
    let st :=
      if allowAnswerAfter
      then set_awaitingNext false (set_canAnswer false st)
      else set_canAnswer false st in
    let st := stopAllAudio (8 # 100) st in
    suspend (AwaitResume token allowAnswerAfter delaySec) st.

(** ... from there to [await Promise.all(...)]; [now] is [ctx.currentTime]. *)
Definition playCurrentInterval_afterResume (token : Z) (allowAnswerAfter : bool)
    (delaySec now : Q) (st : State) : Outcome :=
  if negb (webAudio env) then Returned st
  else
    let safeDelay := maxQ 0 delaySec in
    let t0 := (now + (3 # 100) + safeDelay)%Q in
    match question st with
    | None => Threw st
    | Some q =>
        Returned (suspend (AwaitLoads token allowAnswerAfter t0 (rootPitch q) (highPitch q)) st)
    end.

(** The callback handed to [window.setTimeout]. *)
Definition enableAnswers (token : Z) (st : State) : State :=
  if negb (token =? lastPlayToken st) then st
  else if negb (awaitingNext st) then set_canAnswer true st
  else st.

(** One of the two notes: the sample when its buffer loaded, else a tone at
    the pitch read from [question] at that moment. *)
Definition playNote (a : LoadResult) (pitchOf : Question -> Z) (whenSec : Q)
    (st : State) : Outcome :=
  match buffer a with
  | Some b => Returned (playBufferWindowed b whenSec NOTE_PLAY_SEC (8 # 100) (85 # 100) st)
  | None =>
      match question st with
      | None => Threw st
      | Some q =>
          Returned (playSynthToneWindowed (pitchOf q) whenSec NOTE_PLAY_SEC (8 # 100) (25 # 100) st)
      end
  end.

(** ... and from there to the end; [now] is [ctx.currentTime] again. *)
Definition playCurrentInterval_afterLoads (token : Z) (allowAnswerAfter : bool)
    (t0 : Q) (p1 p2 : Z) (now : Q) (st : State) : Outcome :=
  let a1 := loadPitchBuffer p1 in
  let a2 := loadPitchBuffer p2 in
  let st :=
    match find (fun r => negb (isNone (missingUrl r))) [a1; a2] with
    | Some {| missingUrl := Some url |} => maybeWarnSynthFallback url st
    | _ => st
    end in
  let st :=
    if allowAnswerAfter then
      let startInMs := Z.max 0 (round ((t0 - now) * 1000)) in
      setTimeout (mkTimer token now startInMs) st
    else st in
  match playNote a1 rootPitch t0 st with
  | Threw st => Threw st
  | Returned st => playNote a2 highPitch (t0 + NOTE_PLAY_SEC + GAP_SEC)%Q st
  end.

(** [startNewRound] up to [await new Promise(requestAnimationFrame)]. *)
Definition startNewRound (autoplay : bool) (r1 r2 : Q) (st : State) : Outcome :=
  if negb (started st) then Returned st
  else
    let st := set_canAnswer false (set_awaitingNext false st) in
    match pickQuestion r1 r2 (settings st) with
    | TypeError => Threw st
    | Normal q =>
        let st := set_question q st in
        if autoplay then Returned (suspend AwaitFrame st) else Returned st
    end.

(** ... and after it, up to the first [await] of [playCurrentInterval]. *)
Definition startNewRound_afterFrame (st : State) : State :=
  playCurrentInterval true ROUND_START_DELAY_SEC st.

(** [ts] is [new Date().toISOString()]. *)
Definition onAnswer (intervalIndex : Z) (ts : string) (st : State) : Outcome :=
  if negb (started st) || negb (canAnswer st) || awaitingNext st then Returned st
  else
    match question st with
    | None => Returned st
    | Some q =>
        let sc := score st in
        let sc := mkScore (asked sc + 1) (correct sc) (incorrect sc) (streak sc)
                    (longest sc) (history sc) in
        let st := set_score sc st in
        match index IVL_ALL intervalIndex with
        | None => Threw st
        | Some chosen =>
            let answer := interval q in
            let isCorrect := String.eqb (code chosen) (code answer) in
            let rootLbl := pitchLabel (rootPitch q) in
            let highLbl := pitchLabel (highPitch q) in
            let st :=
              if isCorrect then
                let sc := mkScore (asked sc) (correct sc + 1) (incorrect sc)
                            (streak sc + 1)
                            (Z.max (longest sc) (streak sc + 1)) (history sc) in
                playUiSound SND_CORRECT (set_score sc st)
              else
                let sc := mkScore (asked sc) (correct sc) (incorrect sc + 1) 0
                            (longest sc) (history sc) in
                playUiSound SND_INCORRECT (set_score sc st) in
            let sc := score st in
            let e := mkAnswerEvent ts rootLbl highLbl (code answer) (code chosen)
                       isCorrect (rootMode (settings st))
                       (intervalCount (settings st)) in
            let sc := mkScore (asked sc) (correct sc) (incorrect sc) (streak sc)
                        (longest sc) (history sc ++ [e]) in
            Returned (lockAfterAnswer (set_score sc st))
        end
    end.

Definition resetScore (st : State) : State :=
  set_score (mkScore 0 0 0 0 0 []) st.

(** [count], [mode] and [root] are what the three form controls hold. *)
Definition applySettingsAndRestart (count : Value) (mode : string) (root : Z)
    (r1 r2 : Q) (st : State) : Outcome :=
  let s := mkSettings
      (JNum (clampInt count 2 (Z.of_nat (length IVL_ALL))))
      (if String.eqb mode "fixed" then "fixed" else "random")%string
      root in
  let st := set_settings s st in
  let st := resetScore st in
  let st := set_started true st in
  let st := set_awaitingNext false st in
  let st := set_canAnswer false st in
  let st := set_question None st in
  startNewRound true r1 r2 st.

Definition stopAndResetToNotStarted (st : State) : State :=
  let st := stopAllAudio (8 # 100) st in
  let st := set_started false st in
  let st := set_canAnswer false st in
  let st := set_awaitingNext false st in
  let st := set_question None st in
  resetScore st.

(** The part of [showSettingsModal] that reaches the audio layer. *)
Definition showSettingsModal_begin (st : State) : State :=
  stopAllAudio (6 # 100) st.

Definition init (st : State) : State := showSettingsModal_begin st.

(** The click handlers registered by [bind]. *)
Definition resetBtn_click (st : State) : State :=
  showSettingsModal_begin (stopAndResetToNotStarted st).

Definition replayBtn_click (st : State) : State :=
  if negb (started st) || isNone (question st) then st
  else
    let allowAnswerAfter := negb (awaitingNext st) in
    playCurrentInterval allowAnswerAfter 0 st.

Definition nextBtn_click (r1 r2 : Q) (st : State) : Outcome :=
  if negb (started st) || negb (awaitingNext st) then Returned st
  else startNewRound true r1 r2 st.

(** Resuming a suspended task. *)
Definition resume (t : Task) (now : Q) (st : State) : Outcome :=
  match t with
  | AwaitFrame => Returned (startNewRound_afterFrame st)
  | AwaitResume token allow delaySec =>
      playCurrentInterval_afterResume token allow delaySec now st
  | AwaitLoads token allow t0 p1 p2 =>
      playCurrentInterval_afterLoads token allow t0 p1 p2 now st
  end.

(** ** The event loop

    One event per turn of the browser's event loop: a click, a suspended
    task that continues (with the audio clock's reading), or a timer that
    fires.  Tasks and timers are picked by position; the loop may pick any
    pending one. *)
Inductive Event :=
| ClickApply (count : Value) (mode : string) (root : Z) (r1 r2 : Q)
| ClickReset
| ClickReplay
| ClickNext (r1 r2 : Q)
| ClickAnswer (intervalIndex : Z) (ts : string)
| Continue (i : nat) (now : Q)
| Fire (i : nat).

Definition step (st : State) (ev : Event) : State :=
  match ev with
  | ClickApply count mode root r1 r2 =>
      stateOf (applySettingsAndRestart count mode root r1 r2 st)
  | ClickReset => resetBtn_click st
  | ClickReplay => replayBtn_click st
  | ClickNext r1 r2 => stateOf (nextBtn_click r1 r2 st)
  | ClickAnswer i ts => stateOf (onAnswer i ts st)
  | Continue i now =>
      match nth_error (tasks st) i with
      | None => st
      | Some t => stateOf (resume t now (set_tasks (removeAt i (tasks st)) st))
      end
  | Fire i =>
      match nth_error (timers st) i with
      | None => st
      | Some t => enableAnswers (tmToken t) (set_timers (removeAt i (timers st)) st)
      end
  end.

Definition run (evs : list Event) (st : State) : State :=
  fold_left step evs st.

End Handlers.

(* ------------------------------------------------------------------ *)
(** ** Vocabulary of the specification *)

Inductive RoundPhase := NotStarted | Listening | AwaitingAnswer | Locked.

(** The phase the flags stand for: [onAnswer] gets through its guard
    exactly in [AwaitingAnswer], the next button exactly in [Locked]. *)
Definition phase (st : State) : RoundPhase :=
  if negb (started st) then NotStarted
  else if awaitingNext st then Locked
  else if canAnswer st && negb (isNone (question st)) then AwaitingAnswer
  else Listening.

(** When a pending timer is due, on the audio clock. *)
Definition dueAt (t : Timer) : Q :=
  (tmArmedAt t + inject_Z (tmDelayMs t) / 1000)%Q.

(** When the second note of a schedule that starts at [t0] begins. *)
Definition secondNoteStart (t0 : Q) : Q := (t0 + NOTE_PLAY_SEC + GAP_SEC)%Q.

Definition inRange (p : Z) : Prop := MIN_PITCH <= p <= MAX_PITCH.

(** The outcomes recorded so far, oldest first. *)
Definition outcomes (sc : Score) : list bool := map ev_correct (history sc).

Fixpoint leadingRun (l : list bool) : Z :=
  match l with
  | true :: l' => 1 + leadingRun l'
  | _ => 0
  end.

(** Length of the run of correct answers that ends the list. *)
Definition trailingRun (l : list bool) : Z := leadingRun (rev l).

(** The largest value the trailing run has had after any prefix. *)
Definition runningMax (l : list bool) : Z :=
  fold_right Z.max 0
    (map (fun k => trailingRun (firstn k l)) (seq 0 (S (length l)))).

Definition scoreZeroed (sc : Score) : Prop :=
  sc = mkScore 0 0 0 0 0 [].

(** Events that leave a locked round locked: everything but next, apply and
    reset. *)
Definition keepsRound (ev : Event) : bool :=
  match ev with
  | ClickReplay | ClickAnswer _ _ | Continue _ _ | Fire _ => true
  | _ => false
  end.

Definition isSynth (c : AudioCmd) : bool :=
  match c with PlaySynthToneWindowed _ _ _ _ _ => true | _ => false end.

(** Browsers used in the examples. *)
Definition envAllSamples : Env := mkEnv true (fun _ => true).
Definition envNoSamples : Env := mkEnv true (fun _ => false).

(** The command that plays pitch [p] at [whenSec]: its sample when the
    asset loads, a synthesized tone otherwise. *)
Definition noteCmd (env : Env) (p : Z) (whenSec : Q) : AudioCmd :=
  match buffer (loadPitchBuffer env p) with
  | Some b => PlayBufferWindowed b whenSec NOTE_PLAY_SEC (8 # 100) (85 # 100)
  | None => PlaySynthToneWindowed p whenSec NOTE_PLAY_SEC (8 # 100) (25 # 100)
  end.

(** The first missing sample of a pair of pitches, if any. *)
Definition firstMissing (env : Env) (p1 p2 : Z) : option string :=
  match missingUrl (loadPitchBuffer env p1) with
  | Some u => Some u
  | None => missingUrl (loadPitchBuffer env p2)
  end.

(** What the state is after an answer that got through the guard. *)
Definition recorded (ts : string) (q : Question) (chosen : Interval) (st st' : State) : Prop :=
  let isCorrect := String.eqb (code chosen) (code (interval q)) in
  history (score st') =
    history (score st) ++
    [mkAnswerEvent ts (pitchLabel (rootPitch q)) (pitchLabel (highPitch q))
       (code (interval q)) (code chosen) isCorrect
       (rootMode (settings st)) (intervalCount (settings st))] /\
  asked (score st') = asked (score st) + 1 /\
  correct (score st') = correct (score st) + (if isCorrect then 1 else 0) /\
  incorrect (score st') = incorrect (score st) + (if isCorrect then 0 else 1) /\
  streak (score st') = (if isCorrect then streak (score st) + 1 else 0) /\
  longest (score st') =
    (if isCorrect then Z.max (longest (score st)) (streak (score st) + 1)
     else longest (score st)) /\
  canAnswer st' = false /\ awaitingNext st' = true /\ phase st' = Locked /\
  started st' = true /\ question st' = Some q /\
  settings st' = settings st /\ lastPlayToken st' = lastPlayToken st /\
  tasks st' = tasks st /\ timers st' = timers st.

(** The streak counters agree with the recorded outcomes. *)
Definition scoreInv (sc : Score) : Prop :=
  streak sc = trailingRun (outcomes sc) /\
  longest sc = runningMax (outcomes sc).

(** A locked round on question [q] with score [sc]. *)
Definition lockedWith (q : Question) (sc : Score) (st : State) : Prop :=
  started st = true /\ awaitingNext st = true /\
  question st = Some q /\ score st = sc.

(** The event resumes a round start that was waiting for its animation
    frame: the rest of [startNewRound]. *)
Definition resumesRoundStart (st : State) (ev : Event) : bool :=
  match ev with
  | Continue i _ =>
      match nth_error (tasks st) i with
      | Some AwaitFrame => true
      | _ => false
      end
  | _ => false
  end.

(** No event of the sequence starts a round: none is next, apply or reset,
    and none resumes a round start that is still waiting for its frame. *)
Fixpoint startsNoRound (env : Env) (evs : list Event) (st : State) : bool :=
  match evs with
  | [] => true
  | ev :: evs' =>
      keepsRound ev && negb (resumesRoundStart st ev) &&
      startsNoRound env evs' (step env st ev)
  end.

(** The warning flag and the warning log agree, and there is at most one
    warning. *)
Definition warnInv (st : State) : Prop :=
  (synthFallbackWarned st = false /\ warnLog st = []) \/
  (synthFallbackWarned st = true /\ length (warnLog st) = 1%nat).

(** The current question asks for an interval of the active set. *)
Definition questionActive (st : State) : Prop :=
  match question st with
  | Some q => In (interval q) (activeIntervals (settings st))
  | None => True
  end.

(** The same session in a browser where no sample can be fetched. *)
Definition roundPlayingNoSamples : State :=
  run envNoSamples
    [ClickApply (JStr "12") "random" 48 (1 # 2) (1 # 2);
     Continue 0 0; Continue 0 0; Continue 0 0]
    (init envNoSamples bootState).

(* ------------------------------------------------------------------ *)
(** ** The settings form, the controls and the score panel *)

(** The integers [lo], [lo + 1], ..., [hi], as a [for] loop visits them. *)
Definition zrange (lo hi : Z) : list Z :=
  map (fun i => lo + Z.of_nat i) (seq 0 (Z.to_nat (hi - lo + 1))).

Definition maxIntervalSemitonesForCount (count : Value) : Completion Z :=
  let n := clampInt count 2 (Z.of_nat (length IVL_ALL)) in
  match index IVL_ALL (n - 1) with
  | Some itv => Normal (semitones itv)
  | None => TypeError
  end.

(** A [<select>]: the value and text of its options and the selected
    index ([-1] when nothing is selected). *)
Record Select := mkSelect {
  options : list (string * string);
  selectedIndex : Z
}.

(** [select.value]: the value of the selected option, else the empty string. *)
Definition selectValue (sel : Select) : string :=
  match index (options sel) (selectedIndex sel) with
  | Some o => fst o
  | None => EmptyString
  end.

(** [Array.prototype.findIndex]: the first position that passes, else [-1]. *)
Fixpoint findIndexFrom {A : Type} (f : A -> bool) (l : list A) (i : Z) : Z :=
  match l with
  | [] => -1
  | a :: l' => if f a then i else findIndexFrom f l' (i + 1)
  end.

Definition findIndex {A : Type} (f : A -> bool) (l : list A) : Z :=
  findIndexFrom f l 0.

(** [select.value = v]: the first option with that value gets selected,
    none when there is no such option. *)
Definition setSelectValue (v : string) (sel : Select) : Select :=
  mkSelect (options sel) (findIndex (fun o => String.eqb (fst o) v) (options sel)).

(** [buildRootOptions]; [countSelValue] is [intervalCountSel.value]. *)
Definition buildRootOptions (countSelValue : Value) (s : Settings) : Completion Select :=
  let count := clampInt countSelValue 2 (Z.of_nat (length IVL_ALL)) in
  match maxIntervalSemitonesForCount (JNum count) with
  | TypeError => TypeError
  | Normal maxSemi =>
      let maxRoot := MAX_PITCH - maxSemi in
      let sel :=
        mkSelect (map (fun p => (NumberToString p, pitchLabel p)) (zrange MIN_PITCH maxRoot)) 0 in
      let desiredStr := NumberToString (fixedRootPitch s) in
      let exists_ := existsb (fun o => String.eqb (fst o) desiredStr) (options sel) in
      Normal (if exists_ then setSelectValue desiredStr sel
              else mkSelect (options sel) 0)
  end.

(** What [updateControls] writes to the [disabled] flags. *)
Record Controls := mkControls {
  replayDisabled : bool;
  answersDisabled : bool;
  nextDisabled : bool;
  downloadDisabled : bool
}.

Definition updateControls (st : State) : Controls :=
  mkControls
    (negb (started st) || isNone (question st))
    (negb (started st) || awaitingNext st || negb (canAnswer st) || isNone (question st))
    (negb (started st) || negb (awaitingNext st))
    (negb (started st)).

(** [refreshAnswerVisibility]: whether button [i] is displayed. *)
Definition answerVisible (s : Settings) (i : Z) : bool :=
  i <? clampInt (intervalCount s) 2 (Z.of_nat (length IVL_ALL)).

(** The index [markCorrectButton] looks the button up by. *)
Definition markCorrectButton (intervalCode : string) : Z :=
  findIndex (fun x => String.eqb (code x) intervalCode) IVL_ALL.

(** The "Longest correct streak" item of [renderScore]. *)
Definition shownLongest (sc : Score) : Z := Z.max (longest sc) (streak sc).

(** Answer clicks come from the twelve buttons. *)
Definition fromButtons (ev : Event) : bool :=
  match ev with
  | ClickAnswer i _ => (0 <=? i) && (i <? 12)
  | _ => true
  end.

(** The counters agree with the history. *)
Definition scoreAgrees (sc : Score) : Prop :=
  asked sc = Z.of_nat (length (history sc)) /\
  correct sc = Z.of_nat (length (filter (fun b => b) (outcomes sc))) /\
  incorrect sc = Z.of_nat (length (filter negb (outcomes sc))) /\
  asked sc = correct sc + incorrect sc.

(** The stored settings are what [applySettingsAndRestart] can write. *)
Definition settingsOk (s : Settings) : Prop :=
  (exists n, intervalCount s = JNum n /\ 2 <= n <= 12) /\
  (rootMode s = "fixed"%string \/ rootMode s = "random"%string).

(** The URL [loadPitchBuffer] fetches for a pitch, and the URL a load
    result is about, loaded or missing. *)
Definition sampleUrl (p : Z) : string :=
  match getStemForPc (pcFromPitch p) with
  | Some stem => noteUrl stem (octFromPitch p)
  | None => "(unknown)"%string
  end.

Definition resourceOf (r : LoadResult) : option string :=
  match buffer r with
  | Some b => Some b
  | None => missingUrl r
  end.

Fixpoint distinctStrings (l : list string) : bool :=
  match l with
  | [] => true
  | s :: l' => negb (existsb (String.eqb s) l') && distinctStrings l'
  end.

(** A question as [pickQuestion] makes them, for the stored settings. *)
Definition questionValid (st : State) : Prop :=
  match question st with
  | Some q =>
      In (interval q) (activeIntervals (settings st)) /\
      inRange (rootPitch q) /\ inRange (highPitch q) /\
      highPitch q = rootPitch q + semitones (interval q)
  | None => True
  end.

(** A history entry as [onAnswer] writes them. *)
Definition eventOk (e : AnswerEvent) : Prop :=
  (exists n, ev_intervalCount e = JNum n /\ 2 <= n <= 12) /\
  (ev_mode e = "fixed"%string \/ ev_mode e = "random"%string) /\
  In (ev_guess e) (map code IVL_ALL) /\
  In (ev_interval e) (map code IVL_ALL) /\
  ev_correct e = String.eqb (ev_guess e) (ev_interval e).

Definition sessionInv (st : State) : Prop :=
  settingsOk (settings st) /\ questionValid st /\
  Forall eventOk (history (score st)).

(* ------------------------------------------------------------------ *)
(** ** The mini keyboard *)

(** An object literal with integer keys, and [m[k]]. *)
Definition lookupZ {A : Type} (m : list (Z * A)) (k : Z) : option A :=
  option_map snd (find (fun kv => fst kv =? k) m).

(** A [Map] as the list of its [set] calls, oldest first; [get] sees the
    latest one for the key. *)
Definition mapGet {A : Type} (m : list (Z * A)) (k : Z) : option A :=
  lookupZ (rev m) k.

Definition isBlackPc (pc : Z) : bool := existsb (Z.eqb pc) [1; 3; 6; 8; 10].

Definition whiteIndexInOctave (pc : Z) : option Z :=
  lookupZ [(0, 0); (2, 1); (4, 2); (5, 3); (7, 4); (9, 5); (11, 6)] pc.

Definition clamp (v lo hi : Z) : Z := Z.max lo (Z.min hi v).

Record Window := mkWindow { lo : Z; hi : Z }.

(** [Math.min] and [Math.max] of no argument are the infinities, which the
    two [clamp]s bring to the upper bound; the caller never passes an empty
    array. *)
Definition computeTwoOctaveWindowForSet (pitches : list Z) : Window :=
  let hardLo := pitchFromPcOct 0 3 in
  let hardHi := pitchFromPcOct 0 5 + 12 in
  match pitches with
  | [] => mkWindow hardHi hardHi
  | p :: ps =>
      let minP := fold_left Z.min ps p in
      let maxP := fold_left Z.max ps p in
      let startC := pitchFromPcOct 0 (octFromPitch minP) in
      let endC := startC + 24 in
      let startC' := if endC <? maxP then startC + 12 else startC in
      let endC' := if endC <? maxP then startC + 12 + 24 else endC in
      mkWindow (clamp startC' hardLo hardHi) (clamp endC' hardLo hardHi)
  end.

(** One [<g>] of the drawing: its class, the [x] of its rectangle, the text
    of its label if it has one, and whether it got the classes [first] and
    [second]. *)
Record KeyGroup := mkKeyGroup {
  kClass : string;
  kX : Z;
  kLabel : option string;
  kFirst : bool;
  kSecond : bool
}.

(** The [<svg>]: the size in its [viewBox] and the white and black groups. *)
Record Keyboard := mkKeyboard {
  viewW : Z;
  viewH : Z;
  whiteKeys : list KeyGroup;
  blackKeys : list KeyGroup
}.

Definition WHITE_W : Z := 26.
Definition WHITE_H : Z := 92.
Definition BLACK_W : Z := 16.
Definition BORDER : Z := 8.

Definition buildMiniKeyboard (pitches : list Z)
    (highlightFirstPitch highlightSecondPitch : Z) : Keyboard :=
  match pitches with
  | [] => mkKeyboard 780 128 [] []
  | _ =>
      let w := computeTwoOctaveWindowForSet pitches in
      let all := zrange (lo w) (hi w) in
      let whitePitches :=
        filter (fun p => negb (isNone (whiteIndexInOctave (pcFromPitch p)))) all in
      match whitePitches with
      | [] => mkKeyboard 780 128 [] []
      | _ =>
          let totalWhite := Z.of_nat (length whitePitches) in
          let innerW := totalWhite * WHITE_W in
          let outerW := innerW + BORDER * 2 in
          let outerH := WHITE_H + BORDER * 2 in
          let startX := BORDER in
          let whiteIndexByPitch :=
            combine whitePitches (map Z.of_nat (seq 0 (length whitePitches))) in
          let white :=
            map (fun p =>
                   let pc := pcFromPitch p in
                   let oct := octFromPitch p in
                   let name := (orUndefined (index PC_NAMES_SHARP pc) ++ NumberToString oct)%string in
                   let x := startX +
                            match mapGet whiteIndexByPitch p with
                            | Some i => i
                            | None => 0
                            end * WHITE_W in
                   mkKeyGroup "w" x (Some (if pc =? 0 then name else EmptyString))
                     (p =? highlightFirstPitch) (p =? highlightSecondPitch))
                whitePitches in
          let black :=
            flat_map (fun p =>
                   let pc := pcFromPitch p in
                   if negb (isBlackPc pc) then []
                   else
                     match lookupZ [(1, 0); (3, 2); (6, 5); (8, 7); (10, 9)] pc with
                     | None => []
                     | Some leftPc =>
                         let oct := octFromPitch p in
                         let leftWhitePitch := pitchFromPcOct leftPc oct in
                         match mapGet whiteIndexByPitch leftWhitePitch with
                         | None => []
                         | Some wIndex =>
                             let leftX := startX + wIndex * WHITE_W in
                             let x := leftX + WHITE_W - BLACK_W / 2 in
                             [mkKeyGroup "b" x None
                                (p =? highlightFirstPitch) (p =? highlightSecondPitch)]
                         end
                     end)
                all in
          mkKeyboard outerW outerH white black
      end
  end.

(** Where the key of pitch [p] is expected in a window that starts on the
    C [lo]: white keys side by side from the border, a black key straddling
    the right edge of the white key to its left. *)
Definition whitesBelow (lo p : Z) : Z :=
  Z.of_nat (length (filter (fun x => negb (isBlackPc (pcFromPitch x))) (zrange lo (p - 1)))).

Definition expectedKey (lo p first second : Z) : KeyGroup :=
  if isBlackPc (pcFromPitch p)
  then mkKeyGroup "b" (BORDER + WHITE_W * whitesBelow lo p - BLACK_W / 2) None
         (p =? first) (p =? second)
  else mkKeyGroup "w" (BORDER + WHITE_W * whitesBelow lo p)
         (Some (if pcFromPitch p =? 0
                then (orUndefined (index PC_NAMES_SHARP 0) ++ NumberToString (octFromPitch p))%string
                else EmptyString))
         (p =? first) (p =? second).

Definition keyboardShows (root high : Z) : Prop :=
  let w := computeTwoOctaveWindowForSet [root; high] in
  let kb := buildMiniKeyboard [root; high] root high in
  let white p := negb (isBlackPc (pcFromPitch p)) in
  (lo w = 36 \/ lo w = 48) /\ hi w = lo w + 24 /\
  lo w <= root /\ high <= hi w /\
  viewW kb = 406 /\ viewH kb = 108 /\
  whiteKeys kb =
    map (fun p => expectedKey (lo w) p root high) (filter white (zrange (lo w) (hi w))) /\
  blackKeys kb =
    map (fun p => expectedKey (lo w) p root high)
      (filter (fun p => negb (white p)) (zrange (lo w) (hi w))) /\
  map kX (whiteKeys kb) = map (fun i => 8 + 26 * i) (zrange 0 14) /\
  length (blackKeys kb) = 10%nat /\
  filter kFirst (whiteKeys kb ++ blackKeys kb) = [expectedKey (lo w) root root high] /\
  filter kSecond (whiteKeys kb ++ blackKeys kb) = [expectedKey (lo w) high root high].

(* ------------------------------------------------------------------ *)
(** ** The iframe template: height reports and scroll forwarding

    Heights, coordinates and time stamps are the rationals the doubles
    denote; sums and products of them are taken exactly. *)

Module Frame.

(** Messages posted to the parent window. *)
Inductive Message :=
| IframeHeight (h : Z)
| ScrollTopDelta (d : Q)
| ScrollTopVelocity (v : Q).

Inductive Axis := AxisX | AxisY.

(** The variables of the resize observer and of
    [enableScrollForwardingToParent], and the messages posted so far. *)
Record State := mkState {
  lastHeight : Z;
  startX : Q;
  startY : Q;
  lastY : Q;
  lockedMode : option Axis;
  lastMoveTs : Q;
  vScrollTop : Q;
  outbox : list Message
}.

Definition initial : State := mkState 0 0 0 0 None 0 0 [].

Definition post (m : Message) (s : State) : State :=
  mkState (lastHeight s) (startX s) (startY s) (lastY s) (lockedMode s)
    (lastMoveTs s) (vScrollTop s) (outbox s ++ [m]).

(** The [ResizeObserver] callback on the heights of its entries. *)
Definition onResize (heights : list Q) (s : State) : State :=
  fold_left
    (fun s height =>
       let h := Qceiling height in
       if negb (h =? lastHeight s)
       then
         let s := post (IframeHeight h) s in
         mkState h (startX s) (startY s) (lastY s) (lockedMode s)
           (lastMoveTs s) (vScrollTop s) (outbox s)
       else s)
    heights s.

(** [postHeightNow], which the load listener calls at once and from two
    timers and the orientation-change listener from two timers;
    [docScrollHeight] is [document.documentElement.scrollHeight] and
    [bodyScrollHeight] is [document.body.scrollHeight] when there is a
    body.  It neither reads nor writes [lastHeight]. *)
Definition postHeightNow (docScrollHeight : Z) (bodyScrollHeight : option Z)
    (s : State) : State :=
  let h :=
    Z.max docScrollHeight
      (match bodyScrollHeight with Some b => b | None => 0 end) in
  post (IframeHeight h) s.

(** [a || b] on numbers: [a] unless it is zero. *)
Definition orElse (a b : Q) : Q := if Qeq_bool a 0 then b else a.

(** The [touchstart] listener; [touches] are the [clientX], [clientY] of
    [e.touches] and [interactive] is [isInteractiveTarget(e.target)]. *)
Definition touchstart (touches : list (Q * Q)) (interactive : bool)
    (timeStamp perfNow : Q) (s : State) : State :=
  match touches with
  | [(x, y)] =>
      mkState (lastHeight s) x y y
        (if interactive then Some AxisX else None)
        (orElse timeStamp perfNow) 0 (outbox s)
  | _ => s
  end.

(** The [touchmove] listener; [scrollable] is [isVerticallyScrollable()]. *)
Definition touchmove (touches : list (Q * Q)) (scrollable : bool)
    (timeStamp perfNow : Q) (s : State) : State :=
  match touches with
  | [(x, y)] =>
      if scrollable then s
      else
        let dx := (x - startX s)%Q in
        let dy := (y - startY s)%Q in
        let mode :=
          match lockedMode s with
          | Some m => Some m
          | None =>
              if Qlt_le_dec (Qabs dx + 4) (Qabs dy) then Some AxisY
              else if Qlt_le_dec (Qabs dy + 4) (Qabs dx) then Some AxisX
              else None
          end in
        let s := mkState (lastHeight s) (startX s) (startY s) (lastY s) mode
                   (lastMoveTs s) (vScrollTop s) (outbox s) in
        match mode with
        | Some AxisY =>
            let nowTs := orElse timeStamp perfNow in
            let dt := (if Qlt_le_dec 8 (nowTs - lastMoveTs s) then nowTs - lastMoveTs s else 8)%Q in
            let fingerStep := ((y - lastY s) * 6)%Q in
            let scrollTopDelta := (- fingerStep)%Q in
            let instV := (scrollTopDelta / dt)%Q in
            let v := (vScrollTop s * (75 # 100) + instV * (25 # 100))%Q in
            post (ScrollTopDelta scrollTopDelta)
              (mkState (lastHeight s) (startX s) (startY s) y mode nowTs v (outbox s))
        | _ => s
        end
  | _ => s
  end.

(** [endGesture], the [touchend] and [touchcancel] listener. *)
Definition endGesture (s : State) : State :=
  let s :=
    match lockedMode s with
    | Some AxisY =>
        if Qlt_le_dec (5 # 100) (Qabs (vScrollTop s))
        then
          let capped := Qmax (- (55 # 10)) (Qmin (55 # 10) (vScrollTop s)) in
          post (ScrollTopVelocity capped) s
        else s
    | _ => s
    end in
  mkState (lastHeight s) (startX s) (startY s) (lastY s) None
    (lastMoveTs s) 0 (outbox s).

(** The [wheel] listener. *)
Definition wheel (scrollable : bool) (deltaY : Q) (s : State) : State :=
  if scrollable then s else post (ScrollTopDelta deltaY) s.

Inductive Event :=
| Resize (heights : list Q)
| TouchStart (touches : list (Q * Q)) (interactive : bool) (timeStamp perfNow : Q)
| TouchMove (touches : list (Q * Q)) (scrollable : bool) (timeStamp perfNow : Q)
| TouchEnd
| Wheel (scrollable : bool) (deltaY : Q)
| PostHeightNow (docScrollHeight : Z) (bodyScrollHeight : option Z).

Definition step (s : State) (ev : Event) : State :=
  match ev with
  | Resize hs => onResize hs s
  | TouchStart t i ts pn => touchstart t i ts pn s
  | TouchMove t sc ts pn => touchmove t sc ts pn s
  | TouchEnd => endGesture s
  | Wheel sc d => wheel sc d s
  | PostHeightNow d b => postHeightNow d b s
  end.

Definition run (evs : list Event) (s : State) : State := fold_left step evs s.

(** The heights in the messages, in order. *)
Definition heightsOf (ms : list Message) : list Z :=
  flat_map (fun m => match m with IframeHeight h => [h] | _ => [] end) ms.

Definition isScroll (m : Message) : bool :=
  match m with IframeHeight _ => false | _ => true end.

(** No two neighbours of the list are equal, and the first differs from
    [prev]. *)
Fixpoint changesOnly (prev : Z) (l : list Z) : Prop :=
  match l with
  | [] => True
  | h :: l' => h <> prev /\ changesOnly h l'
  end.

Definition isPostHeightNow (ev : Event) : bool :=
  match ev with PostHeightNow _ _ => true | _ => false end.

(** What one run of the observer's callback, or of a listener other than
    [postHeightNow], adds to the messages. *)
Definition reportsFrom (s s' : State) : Prop :=
  exists ms,
    outbox s' = outbox s ++ ms /\
    changesOnly (lastHeight s) (heightsOf ms) /\
    lastHeight s' = last (heightsOf ms) (lastHeight s).

Definition isMove (ev : Event) : bool :=
  match ev with TouchMove _ _ _ _ | TouchEnd => true | _ => false end.

Definition pageScrollable (ev : Event) : bool :=
  match ev with
  | TouchMove _ sc _ _ | Wheel sc _ => sc
  | _ => true
  end.

End Frame.

(** Every velocity message is above the threshold and within the cap. *)
Definition velocityOk (m : Frame.Message) : Prop :=
  match m with
  | Frame.ScrollTopVelocity v => (5 # 100 < Qabs v)%Q /\ (Qabs v <= 55 # 10)%Q
  | _ => True
  end.

Definition isTouchMove (ev : Frame.Event) : bool :=
  match ev with Frame.TouchMove _ _ _ _ => true | _ => false end.

(** The play token a suspended task or a pending timer carries, and how
    many pending tasks and timers carry token [k]. *)
Definition tokenOfTask (t : Task) : option Z :=
  match t with
  | AwaitFrame => None
  | AwaitResume token _ _ => Some token
  | AwaitLoads token _ _ _ _ => Some token
  end.

Definition carries (k : Z) (o : option Z) : Z :=
  match o with
  | Some token => if k =? token then 1 else 0
  | None => 0
  end.

Definition pendingWith (k : Z) (st : State) : Z :=
  fold_right Z.add 0 (map (fun t => carries k (tokenOfTask t)) (tasks st)) +
  fold_right Z.add 0 (map (fun t => carries k (Some (tmToken t))) (timers st)).

(** At most one pending task or timer per play token, none for a token
    that has not been taken yet. *)
Definition pendingInv (st : State) : Prop :=
  0 <= lastPlayToken st /\
  forall k, pendingWith k st <= 1 /\
            (1 <= pendingWith k st -> 1 <= k <= lastPlayToken st).

(** A session used in the examples: the game is begun with all twelve
    intervals and random roots; the draws pick a perfect fifth on A3. *)
Definition roundStarted : State :=
  run envAllSamples [ClickApply (JStr "12") "random" 48 (1 # 2) (1 # 2)]
    (init envAllSamples bootState).

(** ... the frame arrives, the audio context is ready and the samples are
    loaded, all at audio time 0: both notes are scheduled and the
    enable-answers timer is pending. *)
Definition roundPlaying : State :=
  run envAllSamples [Continue 0 0; Continue 0 0; Continue 0 0] roundStarted.

(** ... the timer fires. *)
Definition roundAwaiting : State := step envAllSamples roundPlaying (Fire 0).

(** ... and the user answers "perfect fifth". *)
Definition roundLocked : State :=
  step envAllSamples roundAwaiting (ClickAnswer 6 "2024-01-01T00:00:00.000Z").

(** A locked round with a round start still waiting for its frame: from
    [roundPlaying] the game is reset and begun again while the
    enable-answers timer is pending, the timer fires and the user answers. *)
Definition roundLockedPendingStart : State :=
  run envAllSamples
    [ClickReset; ClickApply (JStr "12") "random" 48 (1 # 2) (1 # 2); Fire 0;
     ClickAnswer 6 "2024-01-01T00:00:00.000Z"] roundPlaying.

(* ------------------------------------------------------------------ *)
(** * Properties *)

(** ** The definitions on concrete inputs *)

Example pitchLabel_natural : pitchLabel 60 = "C5"%string.
Proof. reflexivity. Qed.

Example pitchLabel_accidental : pitchLabel 49 = "C#4 / Db4"%string.
Proof. reflexivity. Qed.

Example noteUrl_C3 :
  missingUrl (loadPitchBuffer envNoSamples MIN_PITCH) = Some "audio/c3.mp3"%string.
Proof. reflexivity. Qed.

Example parseInt10_prefix : parseInt10 "  -12px" = Finite (-12).
Proof. vm_compute. reflexivity. Qed.

Example parseInt10_empty : parseInt10 "" = NaN.
Proof. reflexivity. Qed.

Example clampInt_select_value : clampInt (JStr "7") 2 12 = 7.
Proof. vm_compute. reflexivity. Qed.

Example round_half_up : round (5 # 2) = 3 /\ round (- (1 # 2)) = 0.
Proof. split; reflexivity. Qed.

Example pickQuestion_fixed_C4 :
  pickQuestion (3 # 4) 0 (mkSettings (JNum 2) "fixed" (pitchFromPcOct 0 4)) =
  Normal (Some (mkQuestion 48 50 (mkInterval "M2" "major second" 2))).
Proof. vm_compute. reflexivity. Qed.

Example pickQuestion_fixed_too_high :
  pickQuestion (3 # 4) 0 (mkSettings (JNum 12) "fixed" 55) = Normal None.
Proof. vm_compute. reflexivity. Qed.

Example roundPlaying_audio :
  audioLog roundPlaying =
  [StopUiSounds; StopAllNotes (6 # 100); StopUiSounds; StopAllNotes (8 # 100);
   PlayBufferWindowed "audio/a3.mp3" (0 + (3 # 100) + (25 # 100))
     NOTE_PLAY_SEC (8 # 100) (85 # 100);
   PlayBufferWindowed "audio/e4.mp3" (secondNoteStart (0 + (3 # 100) + (25 # 100)))
     NOTE_PLAY_SEC (8 # 100) (85 # 100)].
Proof. vm_compute. reflexivity. Qed.

Example roundLocked_score :
  score roundLocked =
  mkScore 1 1 0 1 1
    [mkAnswerEvent "2024-01-01T00:00:00.000Z" "A3" "E4" "P5" "P5" true "random"
       (JNum 12)].
Proof. vm_compute. reflexivity. Qed.

(** ** Decimal printing and parsing *)

Lemma digitValue_digitChar d :
  0 <= d < 10 -> digitValue (digitChar d) = Some d.
Proof.
  intros H.
  assert (d = 0 \/ d = 1 \/ d = 2 \/ d = 3 \/ d = 4 \/ d = 5 \/ d = 6 \/
          d = 7 \/ d = 8 \/ d = 9) as C by lia.
  repeat (destruct C as [-> | C]; [reflexivity |]).
  subst d; reflexivity.
Qed.

Lemma startsWithDigit_digitsToString f n acc :
  startsWithDigit acc = true ->
  startsWithDigit (digitsToString f n acc) = true.
Proof.
  revert n acc; induction f as [| f IH]; intros n acc H;
    cbn [digitsToString]; auto.
  assert (startsWithDigit (String (digitChar (n mod 10)) acc) = true) as H'.
  { unfold startsWithDigit. rewrite digitValue_digitChar; auto.
    apply Z.mod_pos_bound; lia. }
  destruct (n / 10 =? 0); auto.
Qed.

Lemma startsWithDigit_decimal n : startsWithDigit (decimal n) = true.
Proof.
  unfold decimal; cbn [digitsToString].
  assert (startsWithDigit (String (digitChar (n mod 10)) EmptyString) = true) as H'.
  { unfold startsWithDigit. rewrite digitValue_digitChar; auto.
    apply Z.mod_pos_bound; lia. }
  destruct (n / 10 =? 0); auto.
  now apply startsWithDigit_digitsToString.
Qed.

Lemma parseDigits_digitsToString f :
  forall n acc a,
    0 <= n < 2 ^ Z.of_nat f ->
    exists k, 0 <= k /\
      parseDigits a (digitsToString f n acc) = parseDigits (a * 10 ^ k + n) acc.
Proof.
  induction f as [| f IH]; intros n acc a Hn.
  - exists 0. split; [lia |]. cbn [digitsToString].
    change (Z.of_nat 0) with 0 in Hn. change (2 ^ 0) with 1 in Hn.
    f_equal. change (10 ^ 0) with 1. lia.
  - rewrite Nat2Z.inj_succ, Z.pow_succ_r in Hn by lia.
    cbn [digitsToString].
    assert (0 <= n mod 10 < 10) as Hd by (apply Z.mod_pos_bound; lia).
    pose proof (Z.div_mod n 10 ltac:(lia)) as Hdm.
    destruct (n / 10 =? 0) eqn:E.
    + apply Z.eqb_eq in E. exists 1. split; [lia |].
      cbn [parseDigits]. rewrite digitValue_digitChar by assumption.
      f_equal. lia.
    + apply Z.eqb_neq in E.
      assert (0 <= n / 10 < 2 ^ Z.of_nat f) as Hq.
      { split; [apply Z.div_pos; lia |].
        apply Z.div_lt_upper_bound; lia. }
      destruct (IH (n / 10) (String (digitChar (n mod 10)) acc) a Hq)
        as [k [Hk Hp]].
      exists (k + 1). split; [lia |].
      rewrite Hp. cbn [parseDigits].
      rewrite digitValue_digitChar by assumption.
      f_equal. rewrite Z.pow_add_r by lia. lia.
Qed.

Lemma parseDigits_decimal n :
  0 <= n -> parseDigits 0 (decimal n) = n.
Proof.
  intros Hn. unfold decimal.
  destruct (parseDigits_digitsToString (S (Z.to_nat (Z.log2 n))) n EmptyString 0)
    as [k [_ Hp]].
  - rewrite Nat2Z.inj_succ, Z2Nat.id by apply Z.log2_nonneg.
    destruct (Z.eq_dec n 0) as [-> | Hz]; [cbn; lia |].
    split; [lia |]. apply Z.log2_spec. lia.
  - rewrite Hp. cbn [parseDigits]. lia.
Qed.

Lemma trimStart_digit s :
  startsWithDigit s = true -> trimStart s = s.
Proof.
  destruct s as [| c s]; simpl; [reflexivity |].
  unfold digitValue, isWhiteSpace.
  destruct ((48 <=? Z.of_nat (nat_of_ascii c)) && (Z.of_nat (nat_of_ascii c) <=? 57)) eqn:E;
    [| discriminate].
  intros _.
  apply andb_true_iff in E. destruct E as [E1 E2].
  apply Z.leb_le in E1.
  replace ((9 <=? nat_of_ascii c)%nat && (nat_of_ascii c <=? 13)%nat) with false.
  2:{ symmetry. apply andb_false_iff. right. apply Nat.leb_gt. lia. }
  apply Z.leb_le in E2.
  replace (nat_of_ascii c =? 32)%nat with false
    by (symmetry; apply Nat.eqb_neq; lia).
  replace (nat_of_ascii c =? 160)%nat with false; [reflexivity |].
  symmetry. apply Nat.eqb_neq. lia.
Qed.

Lemma sign_of_digit_string s :
  startsWithDigit s = true ->
  match s with
  | String "-" r => (-1, r)
  | String "+" r => (1, r)
  | _ => (1, s)
  end = (1, s).
Proof.
  destruct s as [| c s]; [reflexivity |].
  destruct c as [b0 b1 b2 b3 b4 b5 b6 b7].
  unfold startsWithDigit.
  destruct b0, b1, b2, b3, b4, b5, b6, b7;
    try reflexivity; intros H; vm_compute in H; discriminate H.
Qed.

Lemma overflowBound_large : 10 ^ 21 <= overflowBound.
Proof. apply Z.leb_le. vm_compute. reflexivity. Qed.

Lemma parseInt10_nonneg n :
  0 <= n < 10 ^ 21 -> parseInt10 (decimal n) = Finite n.
Proof.
  intros Hn. unfold parseInt10.
  rewrite trimStart_digit by apply startsWithDigit_decimal.
  rewrite sign_of_digit_string by apply startsWithDigit_decimal.
  rewrite startsWithDigit_decimal, parseDigits_decimal by lia.
  pose proof overflowBound_large.
  destruct (overflowBound <=? n) eqn:E.
  - apply Z.leb_le in E. lia.
  - f_equal. lia.
Qed.

Lemma parseInt10_NumberToString z :
  Z.abs z < 10 ^ 21 -> parseInt10 (NumberToString z) = Finite z.
Proof.
  intros Hz. unfold NumberToString.
  destruct (z <? 0) eqn:E.
  - apply Z.ltb_lt in E. unfold parseInt10.
    cbn [trimStart]. change (isWhiteSpace "-") with false. cbv iota.
    rewrite startsWithDigit_decimal, parseDigits_decimal by lia.
    pose proof overflowBound_large.
    destruct (overflowBound <=? - z) eqn:E'.
    + apply Z.leb_le in E'. lia.
    + f_equal. lia.
  - apply Z.ltb_ge in E. apply parseInt10_nonneg. lia.
Qed.

(** ** [clampInt] and the active interval set *)

Lemma clampInt_number z lo hi :
  Z.abs z < 10 ^ 21 -> clampInt (JNum z) lo hi = Z.max lo (Z.min hi z).
Proof.
  intros Hz. unfold clampInt, ToString.
  now rewrite parseInt10_NumberToString.
Qed.

Lemma clampInt_range v lo hi :
  lo <= hi -> lo <= clampInt v lo hi <= hi.
Proof.
  intros H. unfold clampInt.
  destruct (parseInt10 (ToString v)); lia.
Qed.

Lemma IVL_ALL_length : Z.of_nat (length IVL_ALL) = 12.
Proof. reflexivity. Qed.

Lemma slice_prefix {A : Type} (l : list A) n :
  0 <= n <= Z.of_nat (length l) -> slice 0 n l = firstn (Z.to_nat n) l.
Proof.
  intros H. unfold slice.
  replace (n <? 0) with false by (symmetry; apply Z.ltb_ge; lia).
  change (0 <? 0) with false. cbv iota.
  rewrite (Z.min_l 0), (Z.min_l n), Z.sub_0_r by lia.
  reflexivity.
Qed.

Lemma activeIntervals_clamped s :
  activeIntervals s =
  firstn (Z.to_nat (clampInt (intervalCount s) 2 12)) IVL_ALL.
Proof.
  unfold activeIntervals. rewrite IVL_ALL_length.
  apply slice_prefix. rewrite IVL_ALL_length.
  pose proof (clampInt_range (intervalCount s) 2 12). lia.
Qed.

Lemma activeIntervals_length s :
  Z.of_nat (length (activeIntervals s)) = clampInt (intervalCount s) 2 12.
Proof.
  rewrite activeIntervals_clamped.
  pose proof (clampInt_range (intervalCount s) 2 12 ltac:(lia)) as H.
  rewrite length_firstn.
  change (length IVL_ALL) with 12%nat. lia.
Qed.

(** C5.  For every [intervalCount] in [2..12] the active interval set is the
    first [intervalCount] entries of the twelve-entry catalog, in catalog
    order (semitones 1 to 12, no unison).  Any other value yields the prefix
    whose length is the value clamped into [2..12]: integers below 2 give 2,
    integers above 12 give 12, and values without a leading integer give 2. *)
Theorem activeIntervals_first_entries :
  (forall n mode root, 2 <= n <= 12 ->
     activeIntervals (mkSettings (JNum n) mode root) = firstn (Z.to_nat n) IVL_ALL) /\
  (forall s, exists k, 2 <= k <= 12 /\
     clampInt (intervalCount s) 2 12 = k /\
     activeIntervals s = firstn (Z.to_nat k) IVL_ALL) /\
  (forall z, Z.abs z < 10 ^ 21 -> clampInt (JNum z) 2 12 = Z.max 2 (Z.min 12 z)) /\
  (forall v, parseInt10 (ToString v) = NaN -> clampInt v 2 12 = 2) /\
  map semitones IVL_ALL = [1; 2; 3; 4; 5; 6; 7; 8; 9; 10; 11; 12] /\
  map code IVL_ALL =
    ["m2"; "M2"; "m3"; "M3"; "P4"; "A4/d5"; "P5"; "m6"; "M6"; "m7"; "M7"; "P8"]%string.
Proof.
  split; [| split; [| split; [| split; [| split]]]].
  - intros n mode root Hn.
    rewrite activeIntervals_clamped. cbn [intervalCount].
    rewrite clampInt_number by lia. f_equal. lia.
  - intros s. exists (clampInt (intervalCount s) 2 12).
    split; [apply clampInt_range; lia |].
    split; [reflexivity | apply activeIntervals_clamped].
  - intros z Hz. now apply clampInt_number.
  - intros v Hv. unfold clampInt. now rewrite Hv.
  - reflexivity.
  - reflexivity.
Qed.

Lemma activeIntervals_first_entries_witness :
  activeIntervals (mkSettings (JNum 3) "fixed" 48) =
    [ mkInterval "m2" "minor second" 1;
      mkInterval "M2" "major second" 2;
      mkInterval "m3" "minor third" 3 ] /\
  clampInt (JNum 40) 2 12 = 12 /\
  clampInt (JNum (-7)) 2 12 = 2 /\
  clampInt (JStr "seven") 2 12 = 2.
Proof.
  destruct activeIntervals_first_entries as [H1 [_ [H3 [H4 _]]]].
  split; [| split; [| split]].
  - apply (H1 3 "fixed"%string 48). lia.
  - apply (H3 40). reflexivity.
  - apply (H3 (-7)). reflexivity.
  - apply (H4 (JStr "seven")). reflexivity.
Defined.

(** ** Question generation *)

Lemma Qfloor_scaled r n :
  (0 <= r)%Q -> (r < 1)%Q -> 0 < n ->
  0 <= Qfloor (r * inject_Z n) < n.
Proof.
  intros H0 H1 Hn.
  assert (inject_Z 0 < inject_Z n)%Q as Hn' by (rewrite <- Zlt_Qlt; exact Hn).
  split.
  - change 0 with (Qfloor (inject_Z 0)) at 1. apply Qfloor_resp_le.
    apply Qmult_le_0_compat; [exact H0 | apply Qlt_le_weak; exact Hn'].
  - rewrite Zlt_Qlt.
    apply Qle_lt_trans with (r * inject_Z n)%Q; [apply Qfloor_le |].
    rewrite <- (Qmult_1_l (inject_Z n)) at 2.
    apply Qmult_lt_r; assumption.
Qed.

Lemma index_Some {A : Type} (l : list A) i :
  0 <= i < Z.of_nat (length l) -> exists a, index l i = Some a /\ In a l.
Proof.
  intros H. unfold index.
  replace (i <? 0) with false by (symmetry; apply Z.ltb_ge; lia).
  destruct (nth_error l (Z.to_nat i)) as [a |] eqn:E.
  - exists a. split; [reflexivity | eapply nth_error_In; eassumption].
  - apply nth_error_None in E. lia.
Qed.

(** C4.  For every settings value, and every value [Math.random()] can
    return, [pickQuestion] returns either [null] or a question whose two
    pitches lie in [MIN_PITCH..MAX_PITCH] and whose upper pitch is the root
    plus the semitones of its interval, an interval of the active set; with
    a fixed root this holds whatever pitch [fixedRootPitch] is. *)
Theorem pickQuestion_in_range r1 r2 s :
  (0 <= r1)%Q -> (r1 < 1)%Q ->
  pickQuestion r1 r2 s = Normal None \/
  exists q, pickQuestion r1 r2 s = Normal (Some q) /\
    inRange (rootPitch q) /\ inRange (highPitch q) /\
    highPitch q = rootPitch q + semitones (interval q) /\
    In (interval q) (activeIntervals s) /\
    (String.eqb (rootMode s) "random" = false -> rootPitch q = fixedRootPitch s).
Proof.
  intros H0 H1. unfold pickQuestion.
  pose proof (activeIntervals_length s) as Hlen.
  pose proof (clampInt_range (intervalCount s) 2 12 ltac:(lia)) as Hc.
  destruct (index_Some (activeIntervals s)
              (Qfloor (r1 * inject_Z (Z.of_nat (length (activeIntervals s))))))
    as [itv [-> Hin]].
  { apply Qfloor_scaled; try assumption. lia. }
  set (root := if String.eqb (rootMode s) "random"
               then randIntInclusive r2 MIN_PITCH (MAX_PITCH - semitones itv)
               else fixedRootPitch s).
  destruct ((root <? MIN_PITCH) || (MAX_PITCH <? root)) eqn:E1; [now left |].
  destruct ((root + semitones itv <? MIN_PITCH) || (MAX_PITCH <? root + semitones itv)) eqn:E2;
    [now left |].
  right. eexists. split; [reflexivity |]. cbn [rootPitch highPitch interval].
  apply orb_false_iff in E1, E2.
  destruct E1 as [E1 E1'], E2 as [E2 E2'].
  apply Z.ltb_ge in E1, E1', E2, E2'.
  unfold inRange. repeat split; try assumption.
  intros Hm. subst root. now rewrite Hm.
Qed.

Lemma pickQuestion_in_range_witness :
  pickQuestion (1 # 2) (1 # 3) (mkSettings (JNum 12) "fixed" 48) = Normal None \/
  exists q, pickQuestion (1 # 2) (1 # 3) (mkSettings (JNum 12) "fixed" 48) = Normal (Some q) /\
    inRange (rootPitch q) /\ inRange (highPitch q) /\
    highPitch q = rootPitch q + semitones (interval q) /\
    In (interval q) (activeIntervals (mkSettings (JNum 12) "fixed" 48)) /\
    (String.eqb "fixed" "random" = false -> rootPitch q = 48).
Proof.
  apply (pickQuestion_in_range (1 # 2) (1 # 3) (mkSettings (JNum 12) "fixed" 48));
    vm_compute; [discriminate | reflexivity].
Defined.


Lemma pickQuestion_active r1 r2 s q :
  pickQuestion r1 r2 s = Normal (Some q) -> In (interval q) (activeIntervals s).
Proof.
  unfold pickQuestion, index.
  destruct (_ <? 0); [discriminate |].
  destruct (nth_error _ _) as [itv |] eqn:E; [| discriminate].
  apply nth_error_In in E.
  repeat match goal with
         | |- context [if ?b then _ else _] => destruct b
         end; try discriminate.
  all: intros H; injection H as <-; exact E.
Qed.

(** ** Frame properties of the handlers *)

(** Reduce the handlers and the field accesses, and nothing else. *)
Ltac run_handlers :=
  cbv beta iota zeta delta
      [step applySettingsAndRestart resetBtn_click replayBtn_click
       nextBtn_click onAnswer resume startNewRound_afterFrame startNewRound
       playCurrentInterval playCurrentInterval_afterResume
       playCurrentInterval_afterLoads playNote enableAnswers
       stopAndResetToNotStarted showSettingsModal_begin init resetScore
       lockAfterAnswer stopAllAudio stopAllNotes stopUiSounds playUiSound
       playBufferWindowed playSynthToneWindowed maybeWarnSynthFallback
       suspend setTimeout emit set_started set_canAnswer set_awaitingNext
       set_question set_score set_settings set_lastPlayToken set_tasks
       set_timers stateOf
       started canAnswer awaitingNext question score settings lastPlayToken
       synthFallbackWarned tasks timers audioLog warnLog
       asked correct incorrect streak longest history
       webAudio sampleOk negb orb andb isNone find] in *.

Ltac break_match :=
  repeat match goal with
         | |- context [match ?x with _ => _ end] =>
             lazymatch x with
             | context [match _ with _ => _ end] => fail
             | _ => destruct x eqn:?; run_handlers
             end
         end.

Lemma jsIncr_le n : n <= jsIncr n.
Proof. unfold jsIncr. destruct (n <? maxExact); lia. Qed.

Lemma jsIncr_lt n : n < maxExact -> n < jsIncr n.
Proof.
  intros H. unfold jsIncr.
  replace (n <? maxExact) with true by (symmetry; apply Z.ltb_lt; exact H).
  lia.
Qed.

Section Frames.

Variable env : Env.

Lemma step_token_mono st ev :
  lastPlayToken st <= lastPlayToken (step env st ev).
Proof.
  destruct env as [[|] ok], st, ev; run_handlers; break_match;
    try apply jsIncr_le; try lia.
Qed.

Lemma run_token_mono evs st :
  lastPlayToken st <= lastPlayToken (run env evs st).
Proof.
  revert st; induction evs as [| ev evs IH]; intros st; cbn; [lia |].
  etransitivity; [apply step_token_mono | apply IH].
Qed.

End Frames.

(** ** Play tokens *)

Lemma enableAnswers_stale token st :
  token <> lastPlayToken st -> enableAnswers token st = st.
Proof.
  intros H. unfold enableAnswers.
  replace (token =? lastPlayToken st) with false; [reflexivity |].
  symmetry. apply Z.eqb_neq. exact H.
Qed.

Lemma enableAnswers_enables token st :
  canAnswer st = false ->
  canAnswer (enableAnswers token st) = true ->
  token = lastPlayToken st /\ awaitingNext st = false.
Proof.
  unfold enableAnswers. intros Hc.
  destruct (token =? lastPlayToken st) eqn:E; cbn [negb].
  - apply Z.eqb_eq in E.
    destruct (awaitingNext st); cbn [negb]; intros H; [congruence | auto].
  - congruence.
Qed.

Lemma playCurrentInterval_takes_token env allow delay st :
  started st = true -> question st <> None ->
  lastPlayToken (playCurrentInterval env allow delay st) = jsIncr (lastPlayToken st) /\
  tasks (playCurrentInterval env allow delay st) =
    tasks st ++ [AwaitResume (jsIncr (lastPlayToken st)) allow delay] /\
  timers (playCurrentInterval env allow delay st) = timers st /\
  canAnswer (playCurrentInterval env allow delay st) = false.
Proof.
  intros Hs Hq.
  destruct env as [[|] ok], st, allow; cbn in Hs, Hq; subst;
    (destruct question0; [| congruence]); run_handlers; auto.
Qed.

(** C1.  Two invocations of [playCurrentInterval] that get past its guard,
    with anything happening in between and in the exact range of the
    counter, take strictly increasing tokens from [lastPlayToken]; each
    hands its token to the task that will arm its enable-answers callback.
    From the second invocation on, whatever happens next, the callback that
    captured the first token changes nothing.  In general a callback can
    turn [canAnswer] on only when the token it captured is the current
    value of [lastPlayToken]. *)
Theorem token_supersession env st0 allow1 delay1 evs allow2 delay2 evs' :
  let st1 := playCurrentInterval env allow1 delay1 st0 in
  let st2 := run env evs st1 in
  let st3 := playCurrentInterval env allow2 delay2 st2 in
  let st4 := run env evs' st3 in
  started st0 = true -> question st0 <> None ->
  started st2 = true -> question st2 <> None ->
  lastPlayToken st2 < maxExact ->
  lastPlayToken st0 < lastPlayToken st1 /\
  lastPlayToken st1 < lastPlayToken st3 /\
  In (AwaitResume (lastPlayToken st1) allow1 delay1) (tasks st1) /\
  In (AwaitResume (lastPlayToken st3) allow2 delay2) (tasks st3) /\
  enableAnswers (lastPlayToken st1) st4 = st4 /\
  (forall i t, nth_error (timers st4) i = Some t ->
     tmToken t = lastPlayToken st1 ->
     canAnswer (step env st4 (Fire i)) = canAnswer st4) /\
  (forall token st, canAnswer st = false ->
     canAnswer (enableAnswers token st) = true -> token = lastPlayToken st).
Proof.
  intros st1 st2 st3 st4 Hs0 Hq0 Hs2 Hq2 Hmax.
  destruct (playCurrentInterval_takes_token env allow1 delay1 st0 Hs0 Hq0)
    as [Ht1 [Hk1 _]].
  destruct (playCurrentInterval_takes_token env allow2 delay2 st2 Hs2 Hq2)
    as [Ht3 [Hk3 _]].
  fold st1 in Ht1, Hk1. fold st3 in Ht3, Hk3.
  pose proof (run_token_mono env evs st1) as M12. fold st2 in M12.
  pose proof (run_token_mono env evs' st3) as M34. fold st4 in M34.
  pose proof (jsIncr_lt _ Hmax) as I2.
  assert (lastPlayToken st0 < maxExact) as Hmax0.
  { pose proof (jsIncr_le (lastPlayToken st0)). lia. }
  pose proof (jsIncr_lt _ Hmax0) as I0.
  assert (lastPlayToken st1 <> lastPlayToken st4) as Hne by lia.
  repeat split.
  - lia.
  - lia.
  - rewrite Hk1, Ht1. apply in_or_app. right. now left.
  - rewrite Hk3, Ht3. apply in_or_app. right. now left.
  - now apply enableAnswers_stale.
  - intros i t Hi Ht. cbn [step]. rewrite Hi, Ht.
    rewrite enableAnswers_stale; [reflexivity |].
    destruct st4; exact Hne.
  - intros token st Hc He. now apply (enableAnswers_enables token st).
Qed.

Lemma token_supersession_witness :
  lastPlayToken roundStarted <
    lastPlayToken (playCurrentInterval envAllSamples true (25 # 100) roundStarted) /\
  lastPlayToken (playCurrentInterval envAllSamples true (25 # 100) roundStarted) <
    lastPlayToken
      (playCurrentInterval envAllSamples true 0
         (run envAllSamples [Continue 1 0; Continue 1 0]
            (playCurrentInterval envAllSamples true (25 # 100) roundStarted))) /\
  enableAnswers
    (lastPlayToken (playCurrentInterval envAllSamples true (25 # 100) roundStarted))
    (run envAllSamples [Fire 0]
       (playCurrentInterval envAllSamples true 0
          (run envAllSamples [Continue 1 0; Continue 1 0]
             (playCurrentInterval envAllSamples true (25 # 100) roundStarted)))) =
  run envAllSamples [Fire 0]
    (playCurrentInterval envAllSamples true 0
       (run envAllSamples [Continue 1 0; Continue 1 0]
          (playCurrentInterval envAllSamples true (25 # 100) roundStarted))).
Proof.
  assert (started roundStarted = true) as A1 by (vm_compute; reflexivity).
  assert (question roundStarted <> None) as A2 by (vm_compute; discriminate).
  assert (started
            (run envAllSamples [Continue 1 0; Continue 1 0]
               (playCurrentInterval envAllSamples true (25 # 100) roundStarted)) = true)
    as A3 by (vm_compute; reflexivity).
  assert (question
            (run envAllSamples [Continue 1 0; Continue 1 0]
               (playCurrentInterval envAllSamples true (25 # 100) roundStarted)) <> None)
    as A4 by (vm_compute; discriminate).
  assert (lastPlayToken
            (run envAllSamples [Continue 1 0; Continue 1 0]
               (playCurrentInterval envAllSamples true (25 # 100) roundStarted)) < maxExact)
    as A5 by (vm_compute; reflexivity).
  pose proof (token_supersession envAllSamples roundStarted true (25 # 100)
                [Continue 1 0; Continue 1 0] true 0 [Fire 0] A1 A2 A3 A4 A5) as H.
  exact (conj (proj1 H)
           (conj (proj1 (proj2 H)) (proj1 (proj2 (proj2 (proj2 (proj2 H))))))).
Defined.

(** ** Playback: what the last part of [playCurrentInterval] does *)

Lemma afterLoads_frame env token allow t0 p1 p2 now st :
  let st' := stateOf (playCurrentInterval_afterLoads env token allow t0 p1 p2 now st) in
  started st' = started st /\ canAnswer st' = canAnswer st /\
  awaitingNext st' = awaitingNext st /\ question st' = question st /\
  score st' = score st /\ settings st' = settings st /\
  lastPlayToken st' = lastPlayToken st /\ tasks st' = tasks st /\
  timers st' =
    timers st ++
    (if allow
     then [mkTimer token now (Z.max 0 (round ((t0 - now) * 1000)))]
     else []).
Proof.
  destruct env as [[|] ok], st, allow; run_handlers; break_match;
    repeat split; try reflexivity; symmetry; apply app_nil_r.
Qed.

Lemma afterLoads_audio env token allow t0 p1 p2 now st q :
  webAudio env = true -> question st = Some q ->
  rootPitch q = p1 -> highPitch q = p2 ->
  exists st',
    playCurrentInterval_afterLoads env token allow t0 p1 p2 now st = Returned st' /\
    audioLog st' =
      audioLog st ++ [noteCmd env p1 t0; noteCmd env p2 (secondNoteStart t0)].
Proof.
  intros Hw Hq <- <-.
  destruct env as [wa ok]; cbn in Hw; subst wa.
  destruct st; cbn in Hq; subst.
  unfold noteCmd, secondNoteStart.
  run_handlers; break_match; eexists; (split; [reflexivity |]);
    run_handlers; rewrite <- app_assoc; reflexivity.
Qed.

Lemma round_bounds x :
  (x - (1 # 2) < inject_Z (round x))%Q /\ (inject_Z (round x) <= x + (1 # 2))%Q.
Proof.
  unfold round.
  pose proof (Qfloor_le (x + (1 # 2))) as H1.
  pose proof (Qlt_floor (x + (1 # 2))) as H2.
  rewrite inject_Z_plus in H2. change (inject_Z 1) with 1%Q in H2.
  split; lra.
Qed.

Lemma dueAt_bounds token now t0 :
  let tm := mkTimer token now (Z.max 0 (round ((t0 - now) * 1000))) in
  (now <= dueAt tm)%Q /\
  (t0 - (1 # 2000) < dueAt tm)%Q /\
  ((now <= t0)%Q -> (dueAt tm <= t0 + (1 # 2000))%Q) /\
  ((t0 <= now)%Q -> (dueAt tm == now)%Q).
Proof.
  intros tm. unfold dueAt, tm. cbn [tmArmedAt tmDelayMs]. clear tm.
  destruct (round_bounds ((t0 - now) * 1000)) as [B1 B2].
  remember (round ((t0 - now) * 1000)) as d eqn:Ed. clear Ed.
  unfold Qdiv. change (/ 1000)%Q with (1 # 1000)%Q.
  destruct (Z.le_ge_cases 0 d) as [Hd | Hd].
  - rewrite Z.max_r by exact Hd.
    assert (0 <= inject_Z d)%Q as Hd'
        by (change 0%Q with (inject_Z 0); now rewrite <- Zle_Qle).
    split; [lra |]. split; [lra |]. split; [intros Hle; lra |].
    intros Hle.
    assert (inject_Z d < 1)%Q as Hlt by lra.
    change 1%Q with (inject_Z 1) in Hlt. rewrite <- Zlt_Qlt in Hlt.
    assert (d = 0) as -> by lia. change (inject_Z 0) with 0%Q. lra.
  - rewrite Z.max_l by exact Hd.
    assert (inject_Z d <= 0)%Q as Hd'
        by (change 0%Q with (inject_Z 0); now rewrite <- Zle_Qle).
    change (inject_Z 0) with 0%Q.
    split; [lra |]. split; [lra |]. split; intros Hle; lra.
Qed.

Lemma enableAnswers_latest token st :
  lastPlayToken st = token -> awaitingNext st = false ->
  canAnswer (enableAnswers token st) = true.
Proof.
  intros <- Ha. unfold enableAnswers.
  rewrite Z.eqb_refl, Ha. reflexivity.
Qed.

Lemma afterResume_schedule env token allow delaySec now st q :
  webAudio env = true -> question st = Some q ->
  playCurrentInterval_afterResume env token allow delaySec now st =
  Returned
    (suspend
       (AwaitLoads token allow (now + (3 # 100) + maxQ 0 delaySec)%Q
          (rootPitch q) (highPitch q)) st).
Proof.
  intros Hw Hq. unfold playCurrentInterval_afterResume.
  now rewrite Hw, Hq.
Qed.

(** C2, as the code has it.  A playback that may enable answers arms its
    timer for the start of the schedule, [t0], which is when the first note
    begins: the delay is [max(0, round((t0 - now) * 1000))] milliseconds.
    The timer is never due before it is armed nor more than half a
    millisecond before [t0]; when the samples are loaded by [t0] it is due
    within half a millisecond of [t0], hence before the second note, which
    is scheduled at [t0 + NOTE_PLAY_SEC + GAP_SEC]; when they are loaded
    later it is due at once.  A round begun by start or next has
    [t0 = now + 0.03 + ROUND_START_DELAY_SEC].  When the timer fires with
    the latest token and no answer locked in, [canAnswer] becomes true. *)
Theorem enable_timer_at_first_note env token t0 p1 p2 now st q :
  webAudio env = true -> question st = Some q ->
  rootPitch q = p1 -> highPitch q = p2 ->
  let tm := mkTimer token now (Z.max 0 (round ((t0 - now) * 1000))) in
  (exists st',
     playCurrentInterval_afterLoads env token true t0 p1 p2 now st = Returned st' /\
     timers st' = timers st ++ [tm] /\
     audioLog st' =
       audioLog st ++ [noteCmd env p1 t0; noteCmd env p2 (secondNoteStart t0)]) /\
  (now <= dueAt tm)%Q /\
  (t0 - (1 # 2000) < dueAt tm)%Q /\
  ((now <= t0)%Q ->
     (dueAt tm <= t0 + (1 # 2000))%Q /\ (dueAt tm < secondNoteStart t0)%Q) /\
  ((t0 <= now)%Q -> (dueAt tm == now)%Q) /\
  (forall now0 st0 q0, question st0 = Some q0 ->
     playCurrentInterval_afterResume env token true ROUND_START_DELAY_SEC now0 st0 =
     Returned
       (suspend
          (AwaitLoads token true (now0 + (3 # 100) + ROUND_START_DELAY_SEC)%Q
             (rootPitch q0) (highPitch q0)) st0)) /\
  (forall st1, lastPlayToken st1 = token -> awaitingNext st1 = false ->
     canAnswer (enableAnswers token st1) = true).
Proof.
  intros Hw Hq Hp1 Hp2 tm.
  destruct (dueAt_bounds token now t0) as [D1 [D2 [D3 D4]]]. fold tm in D1, D2, D3, D4.
  split; [| split; [| split; [| split; [| split; [| split]]]]].
  - destruct (afterLoads_audio env token true t0 p1 p2 now st q Hw Hq Hp1 Hp2)
      as [st' [Hr Ha]].
    exists st'. split; [exact Hr |]. split; [| exact Ha].
    pose proof (afterLoads_frame env token true t0 p1 p2 now st) as F.
    cbv zeta in F. rewrite Hr in F. cbn [stateOf] in F.
    destruct F as (_ & _ & _ & _ & _ & _ & _ & _ & F). exact F.
  - exact D1.
  - exact D2.
  - intros Hle. split; [now apply D3 |].
    specialize (D3 Hle). unfold secondNoteStart, NOTE_PLAY_SEC, GAP_SEC. lra.
  - exact D4.
  - intros now0 st0 q0 Hq0.
    now rewrite (afterResume_schedule env token true _ now0 st0 q0 Hw Hq0).
  - intros st1. apply enableAnswers_latest.
Qed.

Lemma enable_timer_at_first_note_witness :
  (dueAt (mkTimer 1 0 280) <= (0 + (3 # 100) + (25 # 100)) + (1 # 2000))%Q /\
  (dueAt (mkTimer 1 0 280) < secondNoteStart (0 + (3 # 100) + (25 # 100)))%Q.
Proof.
  refine (proj1 (proj2 (proj2 (proj2
    (enable_timer_at_first_note envAllSamples 1 (0 + (3 # 100) + (25 # 100))%Q
       45 52 0
       (run envAllSamples [Continue 0 0; Continue 0 0] roundStarted)
       (mkQuestion 45 52 (mkInterval "P5" "perfect fifth" 7))
       _ _ _ _)))) _); vm_compute; try reflexivity; discriminate.
Defined.

(** C2, as stated, fails.  In the example round the schedule starts at
    0.28 s and the second note at 1.61 s; the one pending timer is due 280 ms
    after it was armed at time 0, before the second note starts, and firing
    it turns [canAnswer] on. *)
Lemma enable_timer_before_second_note :
  timers roundPlaying = [mkTimer 1 0 280] /\
  nth_error (audioLog roundPlaying) 5 =
    Some (PlayBufferWindowed "audio/e4.mp3"
            (secondNoteStart (0 + (3 # 100) + (25 # 100))) NOTE_PLAY_SEC
            (8 # 100) (85 # 100)) /\
  ~ (secondNoteStart (0 + (3 # 100) + (25 # 100)) <= dueAt (mkTimer 1 0 280))%Q /\
  canAnswer roundPlaying = false /\
  canAnswer (step envAllSamples roundPlaying (Fire 0)) = true.
Proof.
  split; [vm_compute; reflexivity |].
  split; [vm_compute; reflexivity |].
  split; [| split; vm_compute; reflexivity].
  apply Qlt_not_le. vm_compute. reflexivity.
Qed.

(** ** Reset *)

Lemma reset_to_NotStarted env st :
  let st' := resetBtn_click env st in
  started st' = false /\ canAnswer st' = false /\ awaitingNext st' = false /\
  question st' = None /\ scoreZeroed (score st') /\ phase st' = NotStarted /\
  lastPlayToken st' = lastPlayToken st /\ timers st' = timers st /\
  tasks st' = tasks st.
Proof.
  destruct env as [[|] ok], st; unfold scoreZeroed, phase; run_handlers;
    repeat split; reflexivity.
Qed.

Lemma reset_keeps_latest_timer_live env st i t :
  nth_error (timers st) i = Some t -> tmToken t = lastPlayToken st ->
  canAnswer (step env (resetBtn_click env st) (Fire i)) = true.
Proof.
  intros Hi Ht.
  destruct (reset_to_NotStarted env st) as (_ & _ & Ha & _ & _ & _ & Hl & Htm & _).
  cbv zeta in *. cbn [step]. rewrite Htm, Hi.
  apply enableAnswers_latest.
  - destruct (resetBtn_click env st); cbn in *. congruence.
  - destruct (resetBtn_click env st); cbn in *. congruence.
Qed.

(** C3, on the code.  In the example round the enable-answers timer of the
    current playback is pending when the user resets.  The reset leaves the
    machine not started, with no question and a zeroed score, but it neither
    removes the timer nor moves [lastPlayToken]: when the timer fires after
    the reset its token is still the latest and [canAnswer] becomes true.
    If the game is begun again before it fires, the new round is put in
    [AwaitingAnswer] before any of its audio is scheduled, and an answer is
    accepted. *)
Theorem reset_leaves_enable_timer_live :
  started (step envAllSamples roundPlaying ClickReset) = false /\
  question (step envAllSamples roundPlaying ClickReset) = None /\
  scoreZeroed (score (step envAllSamples roundPlaying ClickReset)) /\
  canAnswer (step envAllSamples roundPlaying ClickReset) = false /\
  timers (step envAllSamples roundPlaying ClickReset) = [mkTimer 1 0 280] /\
  lastPlayToken (step envAllSamples roundPlaying ClickReset) = 1 /\
  canAnswer (run envAllSamples [ClickReset; Fire 0] roundPlaying) = true /\
  phase (run envAllSamples
           [ClickReset; ClickApply (JStr "12") "random" 48 (1 # 2) (1 # 2)]
           roundPlaying) = Listening /\
  phase (run envAllSamples
           [ClickReset; ClickApply (JStr "12") "random" 48 (1 # 2) (1 # 2); Fire 0]
           roundPlaying) = AwaitingAnswer /\
  asked (score (run envAllSamples
           [ClickReset; ClickApply (JStr "12") "random" 48 (1 # 2) (1 # 2); Fire 0;
            ClickAnswer 6 "2024-01-01T00:00:01.000Z"]
           roundPlaying)) = 1.
Proof.
  unfold scoreZeroed. repeat split; vm_compute; reflexivity.
Qed.

(** ** Answers *)

Lemma phase_AwaitingAnswer st :
  phase st = AwaitingAnswer <->
  started st = true /\ question st <> None /\ canAnswer st = true /\
  awaitingNext st = false.
Proof.
  unfold phase.
  destruct (started st), (awaitingNext st), (canAnswer st), (question st);
    cbn; split; intros H; try discriminate H; try (repeat split; congruence);
    destruct H as (H1 & H2 & H3 & H4); congruence.
Qed.

Lemma onAnswer_rejected i ts st :
  started st = false \/ question st = None \/ canAnswer st = false \/
  awaitingNext st = true ->
  onAnswer i ts st = Returned st.
Proof.
  unfold onAnswer. intros H.
  destruct (started st), (canAnswer st), (awaitingNext st); cbn [negb orb];
    try reflexivity.
  destruct (question st); [| reflexivity].
  exfalso. destruct H as [H | [H | [H | H]]]; discriminate H.
Qed.

Lemma onAnswer_accepted i ts st q :
  started st = true -> question st = Some q -> canAnswer st = true ->
  awaitingNext st = false -> 0 <= i < 12 ->
  exists chosen st',
    index IVL_ALL i = Some chosen /\
    onAnswer i ts st = Returned st' /\
    recorded ts q chosen st st'.
Proof.
  intros Hs Hq Hc Ha Hi.
  destruct (index_Some IVL_ALL i) as [chosen [Hix _]];
    [rewrite IVL_ALL_length; exact Hi |].
  exists chosen.
  destruct st as [s c a qu sc se tok w tk tm al wl]; cbn in Hs, Hq, Hc, Ha; subst.
  destruct sc as [n1 n2 n3 n4 n5 h].
  unfold onAnswer, recorded, phase.
  cbn [started canAnswer awaitingNext question score negb orb].
  cbv beta iota zeta delta
      [set_score set_canAnswer set_awaitingNext lockAfterAnswer playUiSound emit
       started canAnswer awaitingNext question score settings lastPlayToken
       synthFallbackWarned tasks timers audioLog warnLog
       asked correct incorrect streak longest history].
  rewrite Hix.
  destruct (String.eqb (code chosen) (code (interval q)));
    eexists; (split; [reflexivity |]); cbn; repeat split; lia.
Qed.

(** C6.  [onAnswer] changes nothing unless the round is in [AwaitingAnswer]:
    when the game is not started, there is no question, answering is not
    enabled or an answer is already locked in, it returns the state it was
    given.  An answer accepted for one of the twelve catalog entries appends
    exactly one event to the history, adds one to [asked], adds one to
    [correct] or to [incorrect], extends or clears the streak, raises
    [longest] to the streak when it is exceeded, and leaves the round
    [Locked] with answering disabled; nothing else changes. *)
Theorem onAnswer_gate_and_record i ts st :
  (phase st <> AwaitingAnswer -> onAnswer i ts st = Returned st) /\
  (started st = false \/ question st = None \/ canAnswer st = false \/
   awaitingNext st = true -> onAnswer i ts st = Returned st) /\
  (forall q,
     started st = true -> question st = Some q -> canAnswer st = true ->
     awaitingNext st = false -> 0 <= i < 12 ->
     exists chosen st',
       index IVL_ALL i = Some chosen /\
       onAnswer i ts st = Returned st' /\
       recorded ts q chosen st st' /\
       length (history (score st')) = S (length (history (score st)))).
Proof.
  split; [| split].
  - intros Hp. apply onAnswer_rejected.
    destruct (started st) eqn:Es; [| now left].
    destruct (question st) eqn:Eq; [| now (right; left)].
    destruct (canAnswer st) eqn:Ec; [| now (right; right; left)].
    destruct (awaitingNext st) eqn:Ea; [now (right; right; right) |].
    exfalso. apply Hp. apply phase_AwaitingAnswer.
    rewrite Es, Eq, Ec, Ea. repeat split; congruence.
  - apply onAnswer_rejected.
  - intros q Hs Hq Hc Ha Hi.
    destruct (onAnswer_accepted i ts st q Hs Hq Hc Ha Hi) as [chosen [st' [H1 [H2 H3]]]].
    exists chosen, st'.
    split; [exact H1 |]. split; [exact H2 |]. split; [exact H3 |].
    destruct H3 as [Hh _]. rewrite Hh, length_app. cbn [length]. lia.
Qed.

Lemma onAnswer_gate_and_record_witness :
  onAnswer 6 "t" roundLocked = Returned roundLocked /\
  exists chosen st',
    index IVL_ALL 6 = Some chosen /\
    onAnswer 6 "t" roundAwaiting = Returned st' /\
    recorded "t" (mkQuestion 45 52 (mkInterval "P5" "perfect fifth" 7)) chosen
      roundAwaiting st' /\
    length (history (score st')) = S (length (history (score roundAwaiting))).
Proof.
  split.
  - apply (proj1 (proj2 (onAnswer_gate_and_record 6 "t" roundLocked))).
    right. right. right. vm_compute. reflexivity.
  - apply (proj2 (proj2 (onAnswer_gate_and_record 6 "t" roundAwaiting)));
      try (vm_compute; reflexivity); lia.
Defined.

(** ** Streaks *)

Lemma trailingRun_snoc l b :
  trailingRun (l ++ [b]) = if b then 1 + trailingRun l else 0.
Proof.
  unfold trailingRun. rewrite rev_app_distr. cbn [rev app].
  destruct b; reflexivity.
Qed.

Lemma leadingRun_nonneg l : 0 <= leadingRun l.
Proof. induction l as [| [|] l IH]; cbn [leadingRun]; lia. Qed.

Lemma fold_max_app xs ys :
  fold_right Z.max 0 (xs ++ ys) =
  Z.max (fold_right Z.max 0 xs) (fold_right Z.max 0 ys).
Proof.
  induction xs as [| x xs IH]; cbn [app fold_right].
  - assert (0 <= fold_right Z.max 0 ys) as H.
    { clear. induction ys as [| y ys IH]; cbn [fold_right]; lia. }
    lia.
  - rewrite IH. lia.
Qed.

Lemma runningMax_snoc l b :
  runningMax (l ++ [b]) = Z.max (runningMax l) (trailingRun (l ++ [b])).
Proof.
  unfold runningMax.
  rewrite length_app. cbn [length]. rewrite Nat.add_1_r.
  rewrite (seq_S (S (length l)) 0), map_app, fold_max_app.
  cbn [map fold_right Nat.add].
  rewrite firstn_all2 by (rewrite length_app; cbn [length]; lia).
  pose proof (leadingRun_nonneg (rev (l ++ [b]))) as Hn.
  fold (trailingRun (l ++ [b])) in Hn.
  rewrite (Z.max_l _ 0) by exact Hn.
  f_equal. f_equal.
  apply map_ext_in. intros k Hk. apply in_seq in Hk.
  rewrite firstn_app.
  replace (k - length l)%nat with 0%nat by lia.
  cbn [firstn]. now rewrite app_nil_r.
Qed.

Lemma runningMax_nil : runningMax [] = 0.
Proof. reflexivity. Qed.

Lemma trailingRun_le_runningMax l : trailingRun l <= runningMax l.
Proof.
  destruct l as [| a l] using rev_ind.
  - cbn. lia.
  - rewrite runningMax_snoc. lia.
Qed.

Lemma runningMax_nonneg l : 0 <= runningMax l.
Proof.
  pose proof (trailingRun_le_runningMax l).
  pose proof (leadingRun_nonneg (rev l)). unfold trailingRun in *. lia.
Qed.

Lemma scoreInv_record sc e :
  scoreInv sc ->
  scoreInv
    (mkScore (asked sc + 1)
       (if ev_correct e then correct sc + 1 else correct sc)
       (if ev_correct e then incorrect sc else incorrect sc + 1)
       (if ev_correct e then streak sc + 1 else 0)
       (if ev_correct e then Z.max (longest sc) (streak sc + 1) else longest sc)
       (history sc ++ [e])).
Proof.
  unfold scoreInv, outcomes. cbn [streak longest history].
  intros [Hs Hl]. rewrite map_app. cbn [map].
  rewrite runningMax_snoc, trailingRun_snoc.
  pose proof (runningMax_nonneg (map ev_correct (history sc))).
  destruct (ev_correct e); split; lia.
Qed.

Section ScoreInvariant.

Variable env : Env.

Lemma step_scoreInv st ev :
  scoreInv (score st) -> scoreInv (score (step env st ev)).
Proof.
  intros H.
  assert (scoreInv (mkScore 0 0 0 0 0 [])) as Hz by (split; reflexivity).
  destruct env as [[|] ok], st as [s c a qu [n1 n2 n3 n4 n5 h] se tok w tk tm al wl], ev;
    cbn [score] in H; run_handlers; break_match; try exact H; try exact Hz.
  all: match goal with
       | |- scoreInv (mkScore _ _ _ _ _ (_ ++ [?e])) =>
           pose proof (scoreInv_record (mkScore n1 n2 n3 n4 n5 h) e H) as R;
           cbn [ev_correct asked correct incorrect streak longest history] in R;
           exact R
       end.
Qed.

Lemma run_scoreInv evs st :
  scoreInv (score st) -> scoreInv (score (run env evs st)).
Proof.
  revert st; induction evs as [| ev evs IH]; intros st H; cbn [run fold_left];
    [exact H |].
  apply IH. now apply step_scoreInv.
Qed.

End ScoreInvariant.


(** ** Replay in a locked round *)

Lemma removeAt_In {A : Type} (x : A) i l : In x (removeAt i l) -> In x l.
Proof.
  unfold removeAt. intros H. apply in_app_or in H.
  rewrite <- (firstn_skipn i l). apply in_or_app.
  destruct H as [H | H]; [now left | right].
  rewrite <- (firstn_skipn 1 (skipn i l)). apply in_or_app. right.
  rewrite skipn_skipn. exact H.
Qed.

Ltac no_frame Hn :=
  let HIn := fresh "HIn" in
  intros HIn;
  lazymatch type of HIn with
  | In _ (_ ++ [_]) =>
      apply in_app_or in HIn; destruct HIn as [HIn | HIn];
      [| cbn [In] in HIn; destruct HIn as [HIn | []]; discriminate HIn]
  | _ => idtac
  end;
  apply Hn; first [exact HIn | eapply removeAt_In; exact HIn].

Lemma step_no_frame env st ev :
  keepsRound ev = true -> ~ In AwaitFrame (tasks st) ->
  ~ In AwaitFrame (tasks (step env st ev)).
Proof.
  intros Hk Hn.
  destruct env as [[|] ok], st as [s c a qu sc0 se tok w tk tm al wl];
    cbn [tasks] in Hn.
  all: destruct ev; try discriminate Hk; run_handlers; break_match; subst.
  all: try (exfalso; apply Hn; eapply nth_error_In; eassumption).
  all: try assumption.
  all: try no_frame Hn.
Qed.

Lemma step_locked env st ev q sc :
  keepsRound ev = true -> resumesRoundStart st ev = false ->
  lockedWith q sc st -> canAnswer st = false ->
  lockedWith q sc (step env st ev) /\ canAnswer (step env st ev) = false.
Proof.
  intros Hk Hr (Hs & Ha & Hq & Hsc) Hc. revert Hr.
  destruct env as [[|] ok], st as [s c a qu sc0 se tok w tk tm al wl];
    cbn [started awaitingNext canAnswer question score] in Hs, Ha, Hc, Hq, Hsc;
    subst.
  all: destruct ev; try discriminate Hk; unfold lockedWith, resumesRoundStart;
    run_handlers; break_match; subst; intros Hr; try discriminate Hr.
  all: repeat split; try reflexivity; try congruence; try assumption.
Qed.

Lemma run_locked env evs st q sc :
  startsNoRound env evs st = true -> lockedWith q sc st -> canAnswer st = false ->
  lockedWith q sc (run env evs st) /\ canAnswer (run env evs st) = false.
Proof.
  revert st; induction evs as [| ev evs IH]; intros st Hk Hl Hc;
    cbn [run fold_left]; [split; assumption |].
  cbn [startsNoRound] in Hk. apply andb_true_iff in Hk. destruct Hk as [Hk Hk'].
  apply andb_true_iff in Hk. destruct Hk as [Hk Hr].
  apply negb_true_iff in Hr.
  destruct (step_locked env st ev q sc Hk Hr Hl Hc) as [Hl' Hc'].
  apply IH; assumption.
Qed.

Lemma startsNoRound_no_frame env evs st :
  ~ In AwaitFrame (tasks st) -> forallb keepsRound evs = true ->
  startsNoRound env evs st = true.
Proof.
  revert st; induction evs as [| ev evs IH]; intros st Hn Hk; [reflexivity |].
  cbn [forallb] in Hk. apply andb_true_iff in Hk. destruct Hk as [Hk Hk'].
  cbn [startsNoRound]. rewrite Hk.
  assert (resumesRoundStart st ev = false) as ->.
  { unfold resumesRoundStart. destruct ev; try reflexivity.
    destruct (nth_error (tasks st) i) as [[| |] |] eqn:E; try reflexivity.
    exfalso. apply Hn. eapply nth_error_In. exact E. }
  cbn [negb andb]. apply IH; [| exact Hk'].
  apply step_no_frame; assumption.
Qed.

Lemma replayBtn_click_locked env st q sc :
  lockedWith q sc st ->
  replayBtn_click env st =
  suspend (AwaitResume (jsIncr (lastPlayToken st)) false 0)
    (stopAllAudio env (8 # 100)
       (set_canAnswer false (set_lastPlayToken (jsIncr (lastPlayToken st)) st))).
Proof.
  intros (Hs & Ha & Hq & _).
  unfold replayBtn_click, playCurrentInterval.
  rewrite Hs, Hq, Ha. reflexivity.
Qed.

Lemma replayBtn_click_keeps env st q sc :
  lockedWith q sc st ->
  lockedWith q sc (replayBtn_click env st) /\
  canAnswer (replayBtn_click env st) = false /\
  tasks (replayBtn_click env st) =
    tasks st ++ [AwaitResume (jsIncr (lastPlayToken st)) false 0] /\
  timers (replayBtn_click env st) = timers st /\
  lastPlayToken (replayBtn_click env st) = jsIncr (lastPlayToken st).
Proof.
  intros Hl. rewrite (replayBtn_click_locked env st q sc Hl).
  destruct Hl as (Hs & Ha & Hq & Hsc).
  destruct env as [[|] ok], st; cbn in Hs, Ha, Hq, Hsc; subst;
    unfold lockedWith; run_handlers; repeat split; reflexivity.
Qed.

Lemma replayBtn_click_noop env st :
  started st = false \/ question st = None -> replayBtn_click env st = st.
Proof.
  unfold replayBtn_click.
  intros [H | H]; rewrite H; [reflexivity |].
  destruct (started st); reflexivity.
Qed.

(** The state [roundLockedPendingStart] is reached from [init] in eight
    events; it is locked with the round start of the second game still
    waiting for its frame.  When that round start is resumed it unlocks the
    round, after a replay as well as without one: it is the round start,
    not the replay, that calls [playCurrentInterval] with
    [allowAnswerAfter = true]. *)
Example pending_round_start_unlocks :
  roundLockedPendingStart =
    run envAllSamples
      [ClickApply (JStr "12") "random" 48 (1 # 2) (1 # 2);
       Continue 0 0; Continue 0 0; Continue 0 0;
       ClickReset; ClickApply (JStr "12") "random" 48 (1 # 2) (1 # 2); Fire 0;
       ClickAnswer 6 "2024-01-01T00:00:00.000Z"]
      (init envAllSamples bootState) /\
  phase roundLockedPendingStart = Locked /\
  tasks roundLockedPendingStart = [AwaitFrame] /\
  phase (step envAllSamples roundLockedPendingStart (Continue 0 1)) = Listening /\
  phase (run envAllSamples [ClickReplay; Continue 1 1; Continue 1 1]
           roundLockedPendingStart) = Locked /\
  phase (run envAllSamples [ClickReplay; Continue 0 1] roundLockedPendingStart) =
    Listening.
Proof. vm_compute. repeat split; reflexivity. Qed.

(** C8.  In a locked round a click on replay calls [playCurrentInterval]
    with [allowAnswerAfter = false]: it takes a new token, leaves
    [awaitingNext] set and [canAnswer] clear, arms no timer and suspends.
    When that playback continues it schedules the two notes of the current
    question, the second [NOTE_PLAY_SEC + GAP_SEC] after the first, and
    again arms no timer.  After the click, through any sequence of further
    replays, answer clicks, timer firings and playback continuations the
    round stays [Locked] with answering disabled and the same question and
    score; the only events left out are those that start a round (next,
    apply, reset, and the rest of a round start that was still waiting for
    its frame when the round was locked), and when no round start is
    waiting, no continuation is left out.  Replay does nothing when the game
    is not started or there is no question. *)
Theorem replay_while_locked env st q sc :
  lockedWith q sc st ->
  let token := jsIncr (lastPlayToken st) in
  let st1 := replayBtn_click env st in
  (tasks st1 = tasks st ++ [AwaitResume token false 0] /\
   timers st1 = timers st /\ lastPlayToken st1 = token /\
   canAnswer st1 = false /\ awaitingNext st1 = true /\ phase st1 = Locked) /\
  (forall now st2, webAudio env = true -> question st2 = Some q ->
     playCurrentInterval_afterResume env token false 0 now st2 =
     Returned
       (suspend
          (AwaitLoads token false (now + (3 # 100) + 0)%Q (rootPitch q) (highPitch q))
          st2)) /\
  (forall t0 now st3, webAudio env = true -> question st3 = Some q ->
     exists st4,
       playCurrentInterval_afterLoads env token false t0 (rootPitch q) (highPitch q)
         now st3 = Returned st4 /\
       timers st4 = timers st3 /\
       canAnswer st4 = canAnswer st3 /\ awaitingNext st4 = awaitingNext st3 /\
       audioLog st4 =
         audioLog st3 ++
         [noteCmd env (rootPitch q) t0;
          noteCmd env (highPitch q) (secondNoteStart t0)]) /\
  (forall evs, startsNoRound env evs st1 = true ->
     lockedWith q sc (run env evs st1) /\ canAnswer (run env evs st1) = false /\
     phase (run env evs st1) = Locked) /\
  (~ In AwaitFrame (tasks st) ->
   forall evs, forallb keepsRound evs = true -> startsNoRound env evs st1 = true) /\
  (forall st', started st' = false \/ question st' = None ->
     replayBtn_click env st' = st').
Proof.
  intros Hl token st1.
  destruct (replayBtn_click_keeps env st q sc Hl) as (Hl1 & Hc1 & Htk & Htm & Htok).
  fold st1 in Hl1, Hc1, Htk, Htm, Htok. fold token in Htk, Htok.
  split; [| split; [| split; [| split; [| split]]]].
  - destruct Hl1 as (Hs & Ha & _).
    repeat split; try assumption. unfold phase. now rewrite Hs, Ha.
  - intros now st2 Hw Hq.
    now rewrite (afterResume_schedule env token false 0 now st2 q Hw Hq).
  - intros t0 now st3 Hw Hq.
    destruct (afterLoads_audio env token false t0 _ _ now st3 q Hw Hq eq_refl eq_refl)
      as [st4 [Hr Hau]].
    exists st4. split; [exact Hr |].
    pose proof (afterLoads_frame env token false t0 (rootPitch q) (highPitch q) now st3) as F.
    cbv zeta in F. rewrite Hr in F. cbn [stateOf] in F.
    destruct F as (_ & Fc & Fa & _ & _ & _ & _ & _ & Ft).
    rewrite app_nil_r in Ft. repeat split; assumption.
  - intros evs Hk.
    destruct (run_locked env evs st1 q sc Hk Hl1 Hc1) as [Hr Hc].
    split; [exact Hr |]. split; [exact Hc |].
    destruct Hr as (Hs & Ha & _). unfold phase. now rewrite Hs, Ha.
  - intros Hn evs Hk. apply startsNoRound_no_frame; [| exact Hk].
    rewrite Htk. intros HIn. apply in_app_or in HIn. destruct HIn as [HIn | HIn];
      [exact (Hn HIn) |].
    cbn [In] in HIn. destruct HIn as [HIn | []]. discriminate HIn.
  - apply replayBtn_click_noop.
Qed.

Lemma replay_while_locked_witness :
  timers (replayBtn_click envAllSamples roundLockedPendingStart) =
    timers roundLockedPendingStart /\
  canAnswer (replayBtn_click envAllSamples roundLockedPendingStart) = false /\
  phase (run envAllSamples
           [Continue 1 2; Continue 1 2; ClickAnswer 3 "2024-01-01T00:00:03.000Z";
            ClickReplay; Fire 0]
           (replayBtn_click envAllSamples roundLockedPendingStart)) = Locked.
Proof.
  assert (lockedWith (mkQuestion 45 52 (mkInterval "P5" "perfect fifth" 7))
            (score roundLockedPendingStart) roundLockedPendingStart) as Hl
    by (unfold lockedWith; vm_compute; repeat split; reflexivity).
  assert (startsNoRound envAllSamples
            [Continue 1 2; Continue 1 2; ClickAnswer 3 "2024-01-01T00:00:03.000Z";
             ClickReplay; Fire 0]
            (replayBtn_click envAllSamples roundLockedPendingStart) = true) as Hk
    by (vm_compute; reflexivity).
  pose proof (replay_while_locked envAllSamples roundLockedPendingStart _ _ Hl) as H.
  cbv zeta in H.
  split; [exact (proj1 (proj2 (proj1 H))) |].
  split; [exact (proj1 (proj2 (proj2 (proj2 (proj1 H))))) |].
  exact (proj2 (proj2 (proj1 (proj2 (proj2 (proj2 H))) _ Hk))).
Defined.

(** ** The synthesized-tone fallback and its warning *)

Lemma step_warnInv env st ev : warnInv st -> warnInv (step env st ev).
Proof.
  unfold warnInv.
  destruct env as [[|] ok], st as [s c a qu sc se tok w tk tm al wl], ev;
    cbn [synthFallbackWarned warnLog]; intros H; run_handlers; break_match;
    try exact H.
  all: destruct H as [[H1 H2] | [H1 H2]]; try discriminate H1; subst.
  all: right; split; reflexivity.
Qed.

Lemma run_warnInv env evs st : warnInv st -> warnInv (run env evs st).
Proof.
  revert st; induction evs as [| ev evs IH]; intros st H; cbn [run fold_left];
    [exact H |].
  apply IH. now apply step_warnInv.
Qed.

Lemma step_warned env st ev :
  synthFallbackWarned st = true ->
  synthFallbackWarned (step env st ev) = true /\
  warnLog (step env st ev) = warnLog st.
Proof.
  destruct env as [[|] ok], st as [s c a qu sc se tok w tk tm al wl], ev;
    cbn [synthFallbackWarned warnLog]; intros H; subst; run_handlers;
    break_match; split; reflexivity.
Qed.

Lemma run_warned env evs st :
  synthFallbackWarned st = true ->
  synthFallbackWarned (run env evs st) = true /\
  warnLog (run env evs st) = warnLog st.
Proof.
  revert st; induction evs as [| ev evs IH]; intros st H; cbn [run fold_left];
    [now split |].
  destruct (step_warned env st ev H) as [H1 H2].
  destruct (IH _ H1) as [H3 H4]. split; [exact H3 | rewrite <- H2; exact H4].
Qed.

Lemma afterLoads_warn env token allow t0 p1 p2 now st :
  let st' := stateOf (playCurrentInterval_afterLoads env token allow t0 p1 p2 now st) in
  warnLog st' =
    warnLog st ++
    (if synthFallbackWarned st then []
     else match firstMissing env p1 p2 with Some u => [u] | None => [] end) /\
  synthFallbackWarned st' =
    synthFallbackWarned st || negb (isNone (firstMissing env p1 p2)).
Proof.
  unfold firstMissing.
  destruct env as [[|] ok], st as [s c a qu sc se tok w tk tm al wl], allow;
    run_handlers; break_match; cbn [missingUrl buffer] in *; subst;
    repeat match goal with
           | H : Some _ = Some _ |- _ => injection H as H; subst
           end;
    try discriminate; cbn [app]; rewrite ?app_nil_r; split; reflexivity.
Qed.

Lemma noteCmd_missing env p w :
  missingUrl (loadPitchBuffer env p) <> None ->
  noteCmd env p w = PlaySynthToneWindowed p w NOTE_PLAY_SEC (8 # 100) (25 # 100).
Proof.
  unfold noteCmd, loadPitchBuffer.
  destruct (getStemForPc (pcFromPitch p)); cbn [missingUrl buffer];
    [| reflexivity].
  destruct (negb _); cbn [missingUrl buffer]; [reflexivity | intros H; congruence].
Qed.

(** C9.  Over a whole session at most one fallback warning is issued.  A
    playback whose samples are looked up adds one warning, naming the first
    missing sample, exactly when none was issued before and a sample of the
    pair is missing, whether one or both are; once the flag is set no event
    adds another.  The playback goes on all the same: both notes are
    scheduled, and a note whose sample is missing is a synthesized tone at
    its pitch. *)
Theorem synth_fallback_warns_once env :
  (forall evs, (length (warnLog (run env evs (init env bootState))) <= 1)%nat) /\
  (forall token allow t0 now st q,
     webAudio env = true -> question st = Some q ->
     exists st',
       playCurrentInterval_afterLoads env token allow t0 (rootPitch q) (highPitch q)
         now st = Returned st' /\
       warnLog st' =
         warnLog st ++
         (if synthFallbackWarned st then []
          else match firstMissing env (rootPitch q) (highPitch q) with
               | Some u => [u]
               | None => []
               end) /\
       synthFallbackWarned st' =
         synthFallbackWarned st ||
         negb (isNone (firstMissing env (rootPitch q) (highPitch q))) /\
       audioLog st' =
         audioLog st ++
         [noteCmd env (rootPitch q) t0;
          noteCmd env (highPitch q) (secondNoteStart t0)]) /\
  (forall p w, missingUrl (loadPitchBuffer env p) <> None ->
     noteCmd env p w = PlaySynthToneWindowed p w NOTE_PLAY_SEC (8 # 100) (25 # 100)) /\
  (forall evs st, synthFallbackWarned st = true ->
     warnLog (run env evs st) = warnLog st).
Proof.
  split; [| split; [| split]].
  - intros evs.
    assert (warnInv (run env evs (init env bootState))) as H.
    { apply run_warnInv. left. destruct env as [[|] ok]; split; reflexivity. }
    destruct H as [[_ H] | [_ H]]; rewrite H; cbn [length]; lia.
  - intros token allow t0 now st q Hw Hq.
    destruct (afterLoads_audio env token allow t0 _ _ now st q Hw Hq eq_refl eq_refl)
      as [st' [Hr Hau]].
    exists st'. split; [exact Hr |].
    pose proof (afterLoads_warn env token allow t0 (rootPitch q) (highPitch q) now st) as W.
    cbv zeta in W. rewrite Hr in W. cbn [stateOf] in W.
    destruct W as [W1 W2]. repeat split; assumption.
  - apply noteCmd_missing.
  - intros evs st H. apply run_warned. exact H.
Qed.

Lemma synth_fallback_warns_once_witness :
  warnLog roundPlayingNoSamples = ["audio/a3.mp3"%string] /\
  filter isSynth (audioLog roundPlayingNoSamples) =
    [PlaySynthToneWindowed 45 (0 + (3 # 100) + (25 # 100)) NOTE_PLAY_SEC (8 # 100) (25 # 100);
     PlaySynthToneWindowed 52 (secondNoteStart (0 + (3 # 100) + (25 # 100)))
       NOTE_PLAY_SEC (8 # 100) (25 # 100)] /\
  warnLog (run envNoSamples [ClickReplay; Continue 0 3; Continue 0 3] roundPlayingNoSamples) =
    warnLog roundPlayingNoSamples.
Proof.
  split; [vm_compute; reflexivity |].
  split; [vm_compute; reflexivity |].
  apply (proj2 (proj2 (proj2 (synth_fallback_warns_once envNoSamples)))).
  vm_compute. reflexivity.
Defined.

(** ** Answers outside the active set *)

Lemma step_questionActive env st ev :
  questionActive st -> questionActive (step env st ev).
Proof.
  unfold questionActive.
  destruct env as [[|] ok], st as [s c a qu sc se tok w tk tm al wl], ev;
    cbn [question settings]; intros H; run_handlers; break_match; subst;
    try exact H; try exact I.
  all: match goal with
       | E : pickQuestion _ _ _ = Normal (Some _) |- _ =>
           apply pickQuestion_active in E; exact E
       end.
Qed.

Lemma run_questionActive env evs st :
  questionActive st -> questionActive (run env evs st).
Proof.
  revert st; induction evs as [| ev evs IH]; intros st H; cbn [run fold_left];
    [exact H |].
  apply IH. now apply step_questionActive.
Qed.

Lemma IVL_codes_NoDup : NoDup (map code IVL_ALL).
Proof.
  cbn [map IVL_ALL code].
  repeat (apply NoDup_cons; [cbn [In]; intuition discriminate |]).
  apply NoDup_nil.
Qed.

Lemma code_beyond_prefix k i chosen a :
  0 <= k <= i -> index IVL_ALL i = Some chosen ->
  In a (firstn (Z.to_nat k) IVL_ALL) ->
  String.eqb (code chosen) (code a) = false.
Proof.
  intros Hk Hi Ha. apply String.eqb_neq. intros Heq.
  unfold index in Hi.
  replace (i <? 0) with false in Hi by (symmetry; apply Z.ltb_ge; lia).
  apply In_nth_error in Ha. destruct Ha as [j Hj].
  assert (j < Z.to_nat k)%nat as Hjk.
  { destruct (Nat.lt_ge_cases j (Z.to_nat k)) as [L | G]; [exact L |].
    assert (nth_error (firstn (Z.to_nat k) IVL_ALL) j <> None) as Hn by congruence.
    apply nth_error_Some in Hn. rewrite length_firstn in Hn. lia. }
  rewrite nth_error_firstn in Hj.
  replace (j <? Z.to_nat k)%nat with true in Hj
    by (symmetry; apply Nat.ltb_lt; exact Hjk).
  pose proof (proj1 (NoDup_nth_error (map code IVL_ALL)) IVL_codes_NoDup
                j (Z.to_nat i)) as Hnd.
  rewrite !nth_error_map, Hi, Hj in Hnd. cbn [option_map] in Hnd.
  assert (j = Z.to_nat i) as E.
  { apply Hnd; [| congruence].
    rewrite length_map. apply nth_error_Some. congruence. }
  lia.
Qed.

(** C10.  In every state the session can reach, once answering is enabled
    [onAnswer] accepts each of the twelve catalog indices, also those at or
    beyond the clamped [intervalCount] whose buttons are hidden: the answer
    is recorded and scored like any other.  The interval asked for is one of
    the active ones and catalog codes are distinct, so such an answer is
    recorded as incorrect. *)
Theorem hidden_answer_is_incorrect env evs i ts q :
  let st := run env evs (init env bootState) in
  started st = true -> question st = Some q -> canAnswer st = true ->
  awaitingNext st = false -> 0 <= i < 12 ->
  In (interval q) (activeIntervals (settings st)) /\
  exists chosen st',
    index IVL_ALL i = Some chosen /\
    onAnswer i ts st = Returned st' /\
    recorded ts q chosen st st' /\
    (clampInt (intervalCount (settings st)) 2 12 <= i ->
       String.eqb (code chosen) (code (interval q)) = false /\
       incorrect (score st') = incorrect (score st) + 1 /\
       correct (score st') = correct (score st) /\
       streak (score st') = 0 /\
       exists e, history (score st') = history (score st) ++ [e] /\
                 ev_correct e = false /\ ev_guess e = code chosen).
Proof.
  intros st Hs Hq Hc Ha Hi.
  assert (questionActive st) as Hact.
  { apply run_questionActive. unfold questionActive.
    destruct env as [[|] ok]; exact I. }
  unfold questionActive in Hact. rewrite Hq in Hact.
  split; [exact Hact |].
  destruct (onAnswer_accepted i ts st q Hs Hq Hc Ha Hi) as [chosen [st' [H1 [H2 H3]]]].
  exists chosen, st'.
  split; [exact H1 |]. split; [exact H2 |]. split; [exact H3 |].
  intros Hhid.
  rewrite activeIntervals_clamped in Hact.
  pose proof (clampInt_range (intervalCount (settings st)) 2 12 ltac:(lia)) as Hr.
  assert (String.eqb (code chosen) (code (interval q)) = false) as Hne.
  { apply (code_beyond_prefix (clampInt (intervalCount (settings st)) 2 12) i);
      [lia | exact H1 | exact Hact]. }
  destruct H3 as (Hh & _ & Hco & Hin & Hst & _).
  cbv zeta in Hh, Hco, Hin, Hst. rewrite Hne in Hh, Hco, Hin, Hst.
  split; [exact Hne |]. split; [exact Hin |]. split; [lia |]. split; [exact Hst |].
  eexists. split; [exact Hh |]. split; reflexivity.
Qed.

Lemma hidden_answer_is_incorrect_witness :
  exists chosen st',
    index IVL_ALL 9 = Some chosen /\
    onAnswer 9 "t" (run envAllSamples
        [ClickApply (JStr "4") "fixed" 48 (1 # 2) (1 # 2);
         Continue 0 0; Continue 0 0; Continue 0 0; Fire 0]
        (init envAllSamples bootState)) = Returned st' /\
    code chosen = "m7"%string /\
    incorrect (score st') = 1.
Proof.
  destruct (hidden_answer_is_incorrect envAllSamples
      [ClickApply (JStr "4") "fixed" 48 (1 # 2) (1 # 2);
       Continue 0 0; Continue 0 0; Continue 0 0; Fire 0]
      9 "t" (mkQuestion 48 51 (mkInterval "m3" "minor third" 3)))
    as [_ [chosen [st' [H1 [H2 [_ H4]]]]]];
    try (vm_compute; reflexivity); try lia.
  exists chosen, st'. split; [exact H1 |]. split; [exact H2 |].
  split.
  - vm_compute in H1. injection H1 as <-. reflexivity.
  - destruct H4 as (_ & H5 & _); [vm_compute; discriminate |].
    rewrite H5. vm_compute. reflexivity.
Defined.

(* ------------------------------------------------------------------ *)
(** * Further properties of the code *)

(** ** Pitch arithmetic and sample lookup *)

Lemma pcFromPitch_mod p : pcFromPitch p = p mod 12.
Proof.
  unfold pcFromPitch.
  pose proof (Z.rem_bound_abs p 12 ltac:(lia)) as Hb.
  pose proof (Z.quot_rem' p 12) as Hq.
  rewrite Z.rem_mod_nonneg by lia.
  replace (Z.rem p 12 + 12) with (p + (1 - Z.quot p 12) * 12) by lia.
  apply Z.mod_add. lia.
Qed.

Lemma pcFromPitch_range p : 0 <= pcFromPitch p < 12.
Proof. rewrite pcFromPitch_mod. apply Z.mod_pos_bound. lia. Qed.

(** X1.  Splitting a pitch into pitch class and octave loses nothing, for
    negative pitches too: the class is in [0..11] and the two parts put the
    pitch back together; and a class in [0..11] with an octave is read back
    from the pitch they make.  Stated for pitches up to 2^52 in magnitude
    (octaves up to 2^48): there every intermediate value is an integer
    below 2^53, which a double holds exactly, and the rounded quotient
    [p / 12] has the floor of the exact one, so the code computes what the
    integers here do. *)
Theorem pitch_decomposition_roundtrip :
  (forall p, Z.abs p <= 2 ^ 52 ->
     0 <= pcFromPitch p < 12 /\
     Z.abs (octFromPitch p * 12) < maxExact /\
     pitchFromPcOct (pcFromPitch p) (octFromPitch p) = p) /\
  (forall pc oct, 0 <= pc < 12 -> Z.abs oct <= 2 ^ 48 ->
     Z.abs (pitchFromPcOct pc oct) <= 2 ^ 52 /\
     pcFromPitch (pitchFromPcOct pc oct) = pc /\
     octFromPitch (pitchFromPcOct pc oct) = oct).
Proof.
  assert (maxExact = 2 ^ 53) as Emax by reflexivity.
  split.
  - intros p Hp. rewrite pcFromPitch_mod. unfold pitchFromPcOct, octFromPitch.
    pose proof (Z.mod_pos_bound p 12 ltac:(lia)).
    pose proof (Z.div_mod p 12 ltac:(lia)).
    split; [lia |]. split; lia.
  - intros pc oct H Ho. rewrite pcFromPitch_mod. unfold pitchFromPcOct, octFromPitch.
    split; [lia |]. split.
    + rewrite Z.add_comm, Z.mod_add by lia. apply Z.mod_small. exact H.
    + rewrite Z.add_comm, Z.div_add by lia. rewrite Z.div_small by exact H. lia.
Qed.

Lemma pitch_decomposition_roundtrip_witness :
  pitchFromPcOct (pcFromPitch (-13)) (octFromPitch (-13)) = -13 /\
  pcFromPitch (pitchFromPcOct 1 (-1)) = 1 /\
  octFromPitch (pitchFromPcOct 1 (-1)) = -1.
Proof.
  split.
  - apply (proj1 pitch_decomposition_roundtrip (-13)). vm_compute. discriminate.
  - apply (proj2 pitch_decomposition_roundtrip 1 (-1)).
    + lia.
    + vm_compute. discriminate.
Defined.

Lemma getStemForPc_found p : exists stem, getStemForPc (pcFromPitch p) = Some stem.
Proof.
  pose proof (pcFromPitch_range p) as Hpc.
  unfold getStemForPc.
  assert (Z.rem (pcFromPitch p + 12) 12 = pcFromPitch p) as ->.
  { rewrite Z.rem_mod_nonneg by lia.
    replace (pcFromPitch p + 12) with (pcFromPitch p + 1 * 12) by lia.
    rewrite Z.mod_add by lia. apply Z.mod_small. exact Hpc. }
  destruct (index_Some PC_TO_STEM (pcFromPitch p)) as [stem [Hs _]];
    [exact Hpc | eauto].
Qed.

(** X2.  For every integer pitch [loadPitchBuffer] finds a stem, so the
    "(unknown)" result never occurs: the sample is looked up at
    [audio/<stem><octave>.mp3], and the result carries either the decoded
    buffer for that URL or that URL as missing, never both and never
    neither; it is missing exactly when Web Audio is absent or the asset
    fails to load. *)
Theorem loadPitchBuffer_total env p :
  exists stem,
    getStemForPc (pcFromPitch p) = Some stem /\
    let url := noteUrl stem (octFromPitch p) in
    pitch (loadPitchBuffer env p) = p /\
    ((webAudio env && sampleOk env url = true /\
      loadPitchBuffer env p = mkLoadResult None (Some url) p) \/
     (webAudio env && sampleOk env url = false /\
      loadPitchBuffer env p = mkLoadResult (Some url) None p)).
Proof.
  destruct (getStemForPc_found p) as [stem Hs]. exists stem.
  split; [exact Hs |]. intros url. unfold loadPitchBuffer. rewrite Hs.
  fold url. destruct (webAudio env && sampleOk env url); cbn [negb pitch];
    split; auto.
Qed.


Lemma in_zrange lo hi x : In x (zrange lo hi) <-> lo <= x <= hi.
Proof.
  unfold zrange. rewrite in_map_iff. split.
  - intros [i [<- Hi]]. apply in_seq in Hi. lia.
  - intros H. exists (Z.to_nat (x - lo)). split; [lia |].
    apply in_seq. lia.
Qed.

Lemma zrange_length lo hi : Z.of_nat (length (zrange lo hi)) = Z.max 0 (hi - lo + 1).
Proof. unfold zrange. rewrite length_map, length_seq. lia. Qed.

Lemma NoDup_map_injective {A B : Type} (f : A -> B) l x y :
  NoDup (map f l) -> In x l -> In y l -> f x = f y -> x = y.
Proof.
  induction l as [| a l IH]; cbn [map In]; [tauto |].
  intros Hnd Hx Hy Heq. apply NoDup_cons_iff in Hnd. destruct Hnd as [Hn Hnd].
  destruct Hx as [-> | Hx], Hy as [-> | Hy]; auto.
  - exfalso. apply Hn. rewrite Heq. now apply in_map.
  - exfalso. apply Hn. rewrite <- Heq. now apply in_map.
Qed.

Lemma NoDup_strings (l : list string) : distinctStrings l = true -> NoDup l.
Proof.
  induction l as [| s l IH]; cbn [distinctStrings]; intros H; [constructor |].
  apply andb_true_iff in H. destruct H as [H1 H2].
  constructor; [| now apply IH].
  intros Hin. apply negb_true_iff in H1.
  assert (existsb (String.eqb s) l = true) as E.
  { apply existsb_exists. exists s. split; [exact Hin | apply String.eqb_refl]. }
  congruence.
Qed.

Lemma resourceOf_loadPitchBuffer env p :
  resourceOf (loadPitchBuffer env p) = Some (sampleUrl p).
Proof.
  destruct (getStemForPc_found p) as [stem Hs].
  unfold sampleUrl, loadPitchBuffer, resourceOf. rewrite Hs.
  destruct (webAudio env && sampleOk env (noteUrl stem (octFromPitch p)));
    reflexivity.
Qed.

(** X3.  Within the playable range C3..C5 two different pitches never ask
    for the same sample URL, so the buffer cache, which is keyed by URL,
    cannot hand one pitch the sample of another; nor do two different
    pitches of the range share a label. *)
Theorem sample_urls_and_labels_distinct env p q :
  inRange p -> inRange q ->
  (resourceOf (loadPitchBuffer env p) = resourceOf (loadPitchBuffer env q) -> p = q) /\
  (pitchLabel p = pitchLabel q -> p = q).
Proof.
  intros Hp Hq.
  assert (In p (zrange MIN_PITCH MAX_PITCH)) as Ip by (apply in_zrange; exact Hp).
  assert (In q (zrange MIN_PITCH MAX_PITCH)) as Iq by (apply in_zrange; exact Hq).
  split.
  - rewrite !resourceOf_loadPitchBuffer. intros E. injection E as E.
    apply (NoDup_map_injective sampleUrl (zrange MIN_PITCH MAX_PITCH));
      try assumption.
    apply NoDup_strings. vm_compute. reflexivity.
  - apply (NoDup_map_injective pitchLabel (zrange MIN_PITCH MAX_PITCH));
      try assumption.
    apply NoDup_strings. vm_compute. reflexivity.
Qed.

Lemma sample_urls_and_labels_distinct_witness :
  (resourceOf (loadPitchBuffer envNoSamples 49) =
   resourceOf (loadPitchBuffer envNoSamples 50) -> 49 = 50) /\
  (pitchLabel 49 = pitchLabel 50 -> 49 = 50).
Proof.
  apply (sample_urls_and_labels_distinct envNoSamples 49 50);
    unfold inRange; vm_compute; split; discriminate.
Defined.


(** ** Question generation *)

Lemma randIntInclusive_range r lo hi :
  (0 <= r)%Q -> (r < 1)%Q -> lo <= hi -> lo <= randIntInclusive r lo hi <= hi.
Proof.
  intros H0 H1 Hle. unfold randIntInclusive; cbv zeta.
  replace (hi <? lo) with false by (symmetry; apply Z.ltb_ge; lia).
  pose proof (Qfloor_scaled r (hi - lo + 1) H0 H1 ltac:(lia)). lia.
Qed.

(** X4.  With a draw in [0, 1) and [lo <= hi], [randIntInclusive] returns an
    integer of [lo..hi], both ends included and both reached; when the range
    is empty ([hi < lo]) it returns [lo] without drawing. *)
Theorem randIntInclusive_bounds lo hi :
  (forall r, (0 <= r)%Q -> (r < 1)%Q -> lo <= hi ->
     lo <= randIntInclusive r lo hi <= hi) /\
  (lo <= hi ->
     randIntInclusive 0 lo hi = lo /\
     randIntInclusive ((hi - lo) # Z.to_pos (hi - lo + 1)) lo hi = hi) /\
  (forall r, hi < lo -> randIntInclusive r lo hi = lo).
Proof.
  split; [| split].
  - intros r H0 H1 Hle. apply randIntInclusive_range; assumption.
  - intros Hle. unfold randIntInclusive; cbv zeta.
    replace (hi <? lo) with false by (symmetry; apply Z.ltb_ge; lia).
    split.
    + rewrite Qmult_0_l. change (Qfloor 0) with 0. lia.
    + set (n := hi - lo + 1).
      assert (0 < n) as Hn by (unfold n; lia).
      assert (((hi - lo) # Z.to_pos n) * inject_Z n == inject_Z (hi - lo))%Q as E.
      { unfold Qeq, Qmult, inject_Z. cbn [Qnum Qden].
        rewrite Pos.mul_1_r, Z2Pos.id by lia. lia. }
      fold n. rewrite E, Qfloor_Z. lia.
  - intros r Hlt. unfold randIntInclusive; cbv zeta.
    replace (hi <? lo) with true by (symmetry; apply Z.ltb_lt; lia).
    reflexivity.
Qed.

Lemma randIntInclusive_bounds_witness :
  36 <= randIntInclusive (2 # 3) 36 48 <= 48 /\
  randIntInclusive ((48 - 36) # Z.to_pos (48 - 36 + 1)) 36 48 = 48 /\
  randIntInclusive (2 # 3) 48 36 = 48.
Proof.
  destruct (randIntInclusive_bounds 36 48) as [H1 [H2 _]].
  destruct (randIntInclusive_bounds 48 36) as [_ [_ H3]].
  split; [apply H1; [discriminate | reflexivity | lia] |].
  split; [apply H2; lia | apply H3; lia].
Defined.

Lemma IVL_ALL_semitones i itv :
  index IVL_ALL i = Some itv -> semitones itv = i + 1 /\ 0 <= i < 12.
Proof.
  unfold index. destruct (i <? 0) eqn:E; [discriminate |].
  apply Z.ltb_ge in E. intros H.
  assert (Z.to_nat i < 12)%nat as Hlt.
  { change 12%nat with (length IVL_ALL). apply nth_error_Some. congruence. }
  assert (i = 0 \/ i = 1 \/ i = 2 \/ i = 3 \/ i = 4 \/ i = 5 \/ i = 6 \/
          i = 7 \/ i = 8 \/ i = 9 \/ i = 10 \/ i = 11) as C by lia.
  repeat (destruct C as [-> | C];
          [cbn in H; injection H as <-; cbn; lia |]).
  subst i. cbn in H. injection H as <-. cbn. lia.
Qed.

Lemma activeIntervals_index s i itv :
  index (activeIntervals s) i = Some itv ->
  index IVL_ALL i = Some itv /\ 0 <= i < clampInt (intervalCount s) 2 12.
Proof.
  rewrite activeIntervals_clamped. unfold index.
  destruct (i <? 0) eqn:E; [discriminate |]. apply Z.ltb_ge in E.
  rewrite nth_error_firstn.
  destruct (Z.to_nat i <? Z.to_nat (clampInt (intervalCount s) 2 12))%nat eqn:L;
    [| discriminate].
  apply Nat.ltb_lt in L. intros H. split; [exact H | lia].
Qed.

Lemma pickQuestion_interval r1 s :
  (0 <= r1)%Q -> (r1 < 1)%Q ->
  exists i itv,
    i = Qfloor (r1 * inject_Z (clampInt (intervalCount s) 2 12)) /\
    0 <= i < clampInt (intervalCount s) 2 12 /\
    index IVL_ALL i = Some itv /\ semitones itv = i + 1 /\
    index (activeIntervals s) (Qfloor (r1 * inject_Z (Z.of_nat (length (activeIntervals s))))) = Some itv.
Proof.
  intros H0 H1.
  pose proof (activeIntervals_length s) as Hlen.
  pose proof (clampInt_range (intervalCount s) 2 12 ltac:(lia)) as Hc.
  rewrite Hlen.
  assert (0 < clampInt (intervalCount s) 2 12) as Hpos by lia.
  pose proof (Qfloor_scaled r1 _ H0 H1 Hpos) as Hi.
  destruct (index_Some (activeIntervals s)
              (Qfloor (r1 * inject_Z (clampInt (intervalCount s) 2 12))))
    as [itv [Hx _]]; [rewrite Hlen; exact Hi |].
  destruct (activeIntervals_index s _ itv Hx) as [Hall _].
  destruct (IVL_ALL_semitones _ itv Hall) as [Hsem _].
  eexists _, itv. repeat split; try eassumption; lia.
Qed.


(** X5.  With random roots, every pair of draws yields a question: the
    result is never [null] and never an error, whichever active interval
    the first draw selects; its interval is one of the active ones and its
    root lies between C3 and the highest root that leaves room for the
    interval below C5. *)
Theorem pickQuestion_random_never_null r1 r2 s :
  (0 <= r1)%Q -> (r1 < 1)%Q -> (0 <= r2)%Q -> (r2 < 1)%Q ->
  rootMode s = "random"%string ->
  exists q,
    pickQuestion r1 r2 s = Normal (Some q) /\
    In (interval q) (activeIntervals s) /\
    MIN_PITCH <= rootPitch q <= MAX_PITCH - semitones (interval q) /\
    highPitch q = rootPitch q + semitones (interval q).
Proof.
  intros H0 H1 H2 H3 Hm.
  destruct (pickQuestion_interval r1 s H0 H1) as (i & itv & Hi & Hr & Hall & Hsem & Hact).
  assert (In itv (activeIntervals s)) as Hin.
  { unfold index in Hact. destruct (_ <? 0); [discriminate Hact |].
    eapply nth_error_In. exact Hact. }
  unfold pickQuestion. rewrite Hact, Hm.
  change (String.eqb "random" "random") with true. cbv iota.
  assert (MIN_PITCH = 36) as Emin by reflexivity.
  assert (MAX_PITCH = 60) as Emax by reflexivity.
  pose proof (clampInt_range (intervalCount s) 2 12 ltac:(lia)) as Hc.
  pose proof (randIntInclusive_range r2 MIN_PITCH (MAX_PITCH - semitones itv)
                H2 H3 ltac:(lia)) as Hb.
  set (root := randIntInclusive r2 MIN_PITCH (MAX_PITCH - semitones itv)) in *.
  replace ((root <? MIN_PITCH) || (MAX_PITCH <? root)) with false
    by (symmetry; apply orb_false_iff; split; apply Z.ltb_ge; lia).
  replace ((root + semitones itv <? MIN_PITCH) || (MAX_PITCH <? root + semitones itv))
    with false
    by (symmetry; apply orb_false_iff; split; apply Z.ltb_ge; lia).
  eexists. split; [reflexivity |]. cbn [rootPitch highPitch interval].
  repeat split; try assumption; lia.
Qed.

Lemma pickQuestion_random_never_null_witness :
  exists q,
    pickQuestion (1 # 2) (1 # 2) (mkSettings (JNum 12) "random" 48) = Normal (Some q) /\
    In (interval q) (activeIntervals (mkSettings (JNum 12) "random" 48)) /\
    MIN_PITCH <= rootPitch q <= MAX_PITCH - semitones (interval q) /\
    highPitch q = rootPitch q + semitones (interval q).
Proof.
  apply (pickQuestion_random_never_null (1 # 2) (1 # 2)
           (mkSettings (JNum 12) "random" 48));
    try reflexivity; discriminate.
Defined.

Lemma pickQuestion_fixed r1 r2 s :
  (0 <= r1)%Q -> (r1 < 1)%Q -> String.eqb (rootMode s) "random" = false ->
  exists itv,
    index IVL_ALL (Qfloor (r1 * inject_Z (clampInt (intervalCount s) 2 12))) = Some itv /\
    semitones itv = Qfloor (r1 * inject_Z (clampInt (intervalCount s) 2 12)) + 1 /\
    pickQuestion r1 r2 s =
      if (MIN_PITCH <=? fixedRootPitch s) &&
         (fixedRootPitch s + semitones itv <=? MAX_PITCH)
      then Normal (Some (mkQuestion (fixedRootPitch s)
                           (fixedRootPitch s + semitones itv) itv))
      else Normal None.
Proof.
  intros H0 H1 Hm.
  destruct (pickQuestion_interval r1 s H0 H1) as (i & itv & Hi & Hr & Hall & Hsem & Hact).
  exists itv. subst i. split; [exact Hall |]. split; [exact Hsem |].
  unfold pickQuestion. rewrite Hact, Hm.
  assert (MIN_PITCH = 36) as Emin by reflexivity.
  assert (MAX_PITCH = 60) as Emax by reflexivity.
  set (root := fixedRootPitch s).
  destruct (MIN_PITCH <=? root) eqn:E1; cbn [andb].
  - apply Z.leb_le in E1.
    replace (root <? MIN_PITCH) with false by (symmetry; apply Z.ltb_ge; lia).
    cbn [orb].
    destruct (root + semitones itv <=? MAX_PITCH) eqn:E2.
    + apply Z.leb_le in E2.
      replace (MAX_PITCH <? root) with false by (symmetry; apply Z.ltb_ge; lia).
      replace (root + semitones itv <? MIN_PITCH) with false
        by (symmetry; apply Z.ltb_ge; lia).
      replace (MAX_PITCH <? root + semitones itv) with false
        by (symmetry; apply Z.ltb_ge; lia).
      reflexivity.
    + apply Z.leb_gt in E2.
      destruct (MAX_PITCH <? root); [reflexivity |].
      replace (MAX_PITCH <? root + semitones itv) with true
        by (symmetry; apply Z.ltb_lt; lia).
      now rewrite orb_true_r.
  - apply Z.leb_gt in E1.
    replace (root <? MIN_PITCH) with true by (symmetry; apply Z.ltb_lt; lia).
    reflexivity.
Qed.

Lemma pickQuestion_fixed_fits r1 r2 s :
  String.eqb (rootMode s) "random" = false ->
  MIN_PITCH <= fixedRootPitch s <= MAX_PITCH - clampInt (intervalCount s) 2 12 ->
  (0 <= r1)%Q -> (r1 < 1)%Q -> pickQuestion r1 r2 s <> Normal None.
Proof.
  intros Hm Hfit H0 H1.
  pose proof (clampInt_range (intervalCount s) 2 12 ltac:(lia)) as Hc.
  destruct (pickQuestion_fixed r1 r2 s H0 H1 Hm) as (itv & _ & Hsem & Hp).
  pose proof (Qfloor_scaled r1 (clampInt (intervalCount s) 2 12) H0 H1 ltac:(lia))
    as Hi.
  rewrite Hp.
  replace (MIN_PITCH <=? fixedRootPitch s) with true
    by (symmetry; apply Z.leb_le; lia).
  replace (fixedRootPitch s + semitones itv <=? MAX_PITCH) with true
    by (symmetry; apply Z.leb_le; lia).
  discriminate.
Qed.

(** X6.  With a fixed root the question, when there is one, is on that
    root.  The fixed root yields a question for every first draw exactly
    when it lies between C3 and C5 minus the clamped interval count, the
    widest active interval; otherwise some draw makes [pickQuestion] return
    [null], and every draw does when the root is below C3 or at or above
    C5. *)
Theorem pickQuestion_fixed_root_fits r2 s :
  String.eqb (rootMode s) "random" = false ->
  let n := clampInt (intervalCount s) 2 12 in
  ((forall r1, (0 <= r1)%Q -> (r1 < 1)%Q -> pickQuestion r1 r2 s <> Normal None) <->
   MIN_PITCH <= fixedRootPitch s <= MAX_PITCH - n) /\
  (forall r1 q, (0 <= r1)%Q -> (r1 < 1)%Q -> pickQuestion r1 r2 s = Normal (Some q) ->
     rootPitch q = fixedRootPitch s) /\
  (fixedRootPitch s < MIN_PITCH \/ MAX_PITCH <= fixedRootPitch s ->
   forall r1, (0 <= r1)%Q -> (r1 < 1)%Q -> pickQuestion r1 r2 s = Normal None).
Proof.
  intros Hm n.
  pose proof (clampInt_range (intervalCount s) 2 12 ltac:(lia)) as Hc. fold n in Hc.
  assert (MIN_PITCH = 36) as Emin by reflexivity.
  assert (MAX_PITCH = 60) as Emax by reflexivity.
  split; [split |]; [| | split].
  - intros Hall.
    assert (0 <= (n - 1) # Z.to_pos n)%Q as A0.
    { unfold Qle. cbn [Qnum Qden]. lia. }
    assert ((n - 1) # Z.to_pos n < 1)%Q as A1.
    { unfold Qlt. cbn [Qnum Qden]. rewrite Z2Pos.id by lia. lia. }
    specialize (Hall _ A0 A1).
    destruct (pickQuestion_fixed ((n - 1) # Z.to_pos n) r2 s A0 A1 Hm)
      as (itv & _ & Hsem & Hp).
    fold n in Hsem.
    assert (((n - 1) # Z.to_pos n) * inject_Z n == inject_Z (n - 1))%Q as E.
    { unfold Qeq, Qmult, inject_Z. cbn [Qnum Qden].
      rewrite Pos.mul_1_r, Z2Pos.id by lia. lia. }
    rewrite E, Qfloor_Z in Hsem.
    rewrite Hp in Hall.
    destruct (MIN_PITCH <=? fixedRootPitch s) eqn:E1; cbn [andb] in Hall;
      [| congruence].
    destruct (fixedRootPitch s + semitones itv <=? MAX_PITCH) eqn:E2;
      [| congruence].
    apply Z.leb_le in E1, E2. lia.
  - intros Hfit r1 H0 H1.
    apply pickQuestion_fixed_fits; assumption.
  - intros r1 q H0 H1 Hq.
    destruct (pickQuestion_fixed r1 r2 s H0 H1 Hm) as (itv & _ & _ & Hp).
    rewrite Hp in Hq.
    destruct (_ && _); [| discriminate Hq].
    injection Hq as <-. reflexivity.
  - intros Hout r1 H0 H1.
    destruct (pickQuestion_fixed r1 r2 s H0 H1 Hm) as (itv & _ & Hsem & Hp).
    pose proof (Qfloor_scaled r1 n H0 H1 ltac:(lia)) as Hi. fold n in Hsem.
    rewrite Hp.
    destruct (MIN_PITCH <=? fixedRootPitch s) eqn:E1; cbn [andb]; [| reflexivity].
    apply Z.leb_le in E1.
    replace (fixedRootPitch s + semitones itv <=? MAX_PITCH) with false
      by (symmetry; apply Z.leb_gt; lia).
    reflexivity.
Qed.

Lemma pickQuestion_fixed_root_fits_witness :
  (forall r1, (0 <= r1)%Q -> (r1 < 1)%Q ->
     pickQuestion r1 0 (mkSettings (JNum 5) "fixed" 55) <> Normal None) /\
  pickQuestion (4 # 5) 0 (mkSettings (JNum 5) "fixed" 56) = Normal None.
Proof.
  split.
  - apply (proj1 (pickQuestion_fixed_root_fits 0 (mkSettings (JNum 5) "fixed" 55)
                    eq_refl)).
    vm_compute. split; discriminate.
  - vm_compute. reflexivity.
Defined.


(** ** The settings form *)

Lemma findIndexFrom_found {A : Type} (f : A -> bool) l i :
  existsb f l = true ->
  exists a, nth_error l (Z.to_nat (findIndexFrom f l i - i)) = Some a /\
            f a = true /\ i <= findIndexFrom f l i.
Proof.
  revert i; induction l as [| x l IH]; intros i H; cbn [existsb] in H;
    [discriminate |].
  cbn [findIndexFrom]. destruct (f x) eqn:E.
  - exists x. rewrite Z.sub_diag. cbn. repeat split; [exact E | lia].
  - cbn [orb] in H. destruct (IH (i + 1) H) as [a [Hn [Hf Hle]]].
    exists a. split; [| split; [exact Hf | lia]].
    replace (Z.to_nat (findIndexFrom f l (i + 1) - i))
      with (S (Z.to_nat (findIndexFrom f l (i + 1) - (i + 1)))) by lia.
    exact Hn.
Qed.

Lemma findIndexFrom_missing {A : Type} (f : A -> bool) l i :
  existsb f l = false -> findIndexFrom f l i = -1.
Proof.
  revert i; induction l as [| x l IH]; intros i H; cbn [existsb] in H;
    [reflexivity |].
  apply orb_false_iff in H. destruct H as [H1 H2].
  cbn [findIndexFrom]. rewrite H1. now apply IH.
Qed.

Lemma maxIntervalSemitonesForCount_clamped count :
  maxIntervalSemitonesForCount count = Normal (clampInt count 2 12).
Proof.
  unfold maxIntervalSemitonesForCount. rewrite IVL_ALL_length.
  pose proof (clampInt_range count 2 12 ltac:(lia)) as Hc.
  destruct (index_Some IVL_ALL (clampInt count 2 12 - 1)) as [itv [Hi _]];
    [rewrite IVL_ALL_length; lia |].
  rewrite Hi. destruct (IVL_ALL_semitones _ _ Hi) as [-> _]. f_equal. lia.
Qed.

Lemma NumberToString_injective x y :
  Z.abs x < 10 ^ 21 -> Z.abs y < 10 ^ 21 ->
  NumberToString x = NumberToString y -> x = y.
Proof.
  intros Hx Hy E.
  pose proof (parseInt10_NumberToString x Hx) as Px.
  pose proof (parseInt10_NumberToString y Hy) as Py.
  rewrite E in Px. congruence.
Qed.

(** X7.  [buildRootOptions] never fails.  It offers exactly the roots from
    C3 up to C5 minus the clamped interval count, at least thirteen of
    them, each under the decimal text of its pitch.  It selects the stored
    fixed root when that is one of them and the first option, C3,
    otherwise, so the value the form hands back always parses to an offered
    root; and with any offered root as fixed root and that count,
    [pickQuestion] yields a question on every draw. *)
Theorem buildRootOptions_offers_valid_roots countSelValue s :
  Z.abs (fixedRootPitch s) < 10 ^ 21 ->
  let n := clampInt countSelValue 2 12 in
  exists sel,
    buildRootOptions countSelValue s = Normal sel /\
    options sel =
      map (fun p => (NumberToString p, pitchLabel p)) (zrange MIN_PITCH (MAX_PITCH - n)) /\
    (13 <= length (options sel))%nat /\
    parseInt10 (selectValue sel) =
      Finite (if (MIN_PITCH <=? fixedRootPitch s) && (fixedRootPitch s <=? MAX_PITCH - n)
              then fixedRootPitch s else MIN_PITCH) /\
    (forall o, In o (options sel) ->
       exists p, parseInt10 (fst o) = Finite p /\
         MIN_PITCH <= p <= MAX_PITCH - n /\
         forall r1 r2 mode, (0 <= r1)%Q -> (r1 < 1)%Q ->
           String.eqb mode "random" = false ->
           pickQuestion r1 r2 (mkSettings (JNum n) mode p) <> Normal None).
Proof.
  intros Hfix n.
  pose proof (clampInt_range countSelValue 2 12 ltac:(lia)) as Hc. fold n in Hc.
  assert (MIN_PITCH = 36) as Emin by reflexivity.
  assert (MAX_PITCH = 60) as Emax by reflexivity.
  assert (clampInt (JNum n) 2 12 = n) as Hnn.
  { rewrite clampInt_number by lia. lia. }
  unfold buildRootOptions. rewrite IVL_ALL_length. fold n.
  rewrite maxIntervalSemitonesForCount_clamped, Hnn.
  set (opts := map (fun p => (NumberToString p, pitchLabel p))
                 (zrange MIN_PITCH (MAX_PITCH - n))).
  cbn [options].
  assert (forall o, In o opts ->
            exists p, fst o = NumberToString p /\ MIN_PITCH <= p <= MAX_PITCH - n)
    as Hopt.
  { intros o Ho. apply in_map_iff in Ho. destruct Ho as [p [<- Hp]].
    exists p. split; [reflexivity | now apply in_zrange]. }
  assert (13 <= length opts)%nat as Hlen.
  { unfold opts. rewrite length_map.
    pose proof (zrange_length MIN_PITCH (MAX_PITCH - n)). lia. }
  eexists. split; [reflexivity |].
  split; [destruct (existsb _ opts); reflexivity |].
  split; [destruct (existsb _ opts); exact Hlen |].
  split.
  - destruct (existsb (fun o => String.eqb (fst o) (NumberToString (fixedRootPitch s))) opts)
      eqn:Ex.
    + destruct (findIndexFrom_found _ opts 0 Ex) as [a [Hn [Hf Hle]]].
      unfold selectValue, setSelectValue, findIndex, index.
      cbn [options selectedIndex].
      replace (findIndexFrom _ opts 0 <? 0) with false
        by (symmetry; apply Z.ltb_ge; exact Hle).
      rewrite Z.sub_0_r in Hn. rewrite Hn.
      apply String.eqb_eq in Hf. rewrite Hf.
      rewrite parseInt10_NumberToString by exact Hfix.
      destruct (Hopt a (nth_error_In _ _ Hn)) as [p [Hp Hr]].
      rewrite Hf in Hp.
      apply NumberToString_injective in Hp; [| exact Hfix | lia].
      subst p.
      replace (MIN_PITCH <=? fixedRootPitch s) with true
        by (symmetry; apply Z.leb_le; lia).
      replace (fixedRootPitch s <=? MAX_PITCH - n) with true
        by (symmetry; apply Z.leb_le; lia).
      reflexivity.
    + unfold selectValue, index. cbn [options selectedIndex].
      change (0 <? 0) with false. cbv iota.
      destruct ((MIN_PITCH <=? fixedRootPitch s) && (fixedRootPitch s <=? MAX_PITCH - n))
        eqn:In.
      * exfalso. apply andb_true_iff in In. destruct In as [I1 I2].
        apply Z.leb_le in I1, I2.
        assert (existsb (fun o => String.eqb (fst o) (NumberToString (fixedRootPitch s))) opts
                = true) as C; [| congruence].
        apply existsb_exists.
        exists (NumberToString (fixedRootPitch s), pitchLabel (fixedRootPitch s)).
        split; [| apply String.eqb_refl].
        unfold opts. apply in_map_iff. exists (fixedRootPitch s).
        split; [reflexivity | apply in_zrange; lia].
      * unfold opts, zrange.
        replace (Z.to_nat (MAX_PITCH - n - MIN_PITCH + 1))
          with (S (Z.to_nat (MAX_PITCH - n - MIN_PITCH))) by lia.
        cbn [seq map nth_error Z.to_nat fst].
        rewrite Z.add_0_r. apply parseInt10_NumberToString. rewrite Emin. reflexivity.
  - intros o Ho.
    assert (In o opts) as Ho' by (destruct (existsb _ opts); exact Ho).
    destruct (Hopt o Ho') as [p [Hp Hr]]. exists p.
    split; [rewrite Hp; apply parseInt10_NumberToString; lia |].
    split; [exact Hr |].
    intros r1 r2 mode H0 H1 Hm.
    apply pickQuestion_fixed_fits; cbn [intervalCount fixedRootPitch rootMode];
      try assumption.
    rewrite Hnn. exact Hr.
Qed.

Lemma buildRootOptions_offers_valid_roots_witness :
  exists sel,
    buildRootOptions (JStr "5") (mkSettings (JNum 12) "fixed" 58) = Normal sel /\
    length (options sel) = 20%nat /\
    parseInt10 (selectValue sel) = Finite 36.
Proof.
  destruct (buildRootOptions_offers_valid_roots (JStr "5")
              (mkSettings (JNum 12) "fixed" 58))
    as (sel & H1 & H2 & _ & H4 & _); [vm_compute; reflexivity |].
  exists sel. split; [exact H1 |]. split.
  - rewrite H2. vm_compute. reflexivity.
  - rewrite H4. vm_compute. reflexivity.
Defined.


(** ** Answers, score and controls *)

(** X8.  An answer that gets through the guard with an index outside the
    catalog fails on [chosen.code], after [asked] has been counted: the
    handler is aborted with [asked] one higher and nothing else changed, no
    event recorded and the round still awaiting an answer. *)
Theorem onAnswer_outside_catalog i ts st q :
  started st = true -> question st = Some q -> canAnswer st = true ->
  awaitingNext st = false -> i < 0 \/ 12 <= i ->
  onAnswer i ts st =
    Threw (set_score
             (mkScore (asked (score st) + 1) (correct (score st))
                (incorrect (score st)) (streak (score st)) (longest (score st))
                (history (score st))) st) /\
  phase (stateOf (onAnswer i ts st)) = AwaitingAnswer.
Proof.
  intros Hs Hq Hc Ha Hi.
  assert (index IVL_ALL i = None) as Hx.
  { unfold index. destruct (i <? 0) eqn:E; [reflexivity |].
    apply Z.ltb_ge in E. apply nth_error_None.
    change (length IVL_ALL) with 12%nat. lia. }
  unfold onAnswer. rewrite Hs, Hc, Ha, Hq. cbn [negb orb].
  rewrite Hx. split; [reflexivity |].
  unfold phase. cbn [stateOf]. destruct st; cbn in *. subst. reflexivity.
Qed.

Lemma onAnswer_outside_catalog_witness :
  asked (score (stateOf (onAnswer 12 "t" roundAwaiting))) = 1 /\
  history (score (stateOf (onAnswer 12 "t" roundAwaiting))) = [] /\
  phase (stateOf (onAnswer 12 "t" roundAwaiting)) = AwaitingAnswer.
Proof.
  destruct (onAnswer_outside_catalog 12 "t" roundAwaiting
              (mkQuestion 45 52 (mkInterval "P5" "perfect fifth" 7)))
    as [H1 H2]; try (vm_compute; reflexivity); [right; lia |].
  rewrite H1. split; [| split]; vm_compute; reflexivity.
Defined.

Lemma scoreAgrees_record sc e :
  scoreAgrees sc ->
  scoreAgrees
    (mkScore (asked sc + 1)
       (if ev_correct e then correct sc + 1 else correct sc)
       (if ev_correct e then incorrect sc else incorrect sc + 1)
       (if ev_correct e then streak sc + 1 else 0)
       (if ev_correct e then Z.max (longest sc) (streak sc + 1) else longest sc)
       (history sc ++ [e])).
Proof.
  unfold scoreAgrees, outcomes. cbn [asked correct incorrect history].
  intros (H1 & H2 & H3 & H4).
  rewrite length_app, map_app, !filter_app, !length_app. cbn [map length filter].
  destruct (ev_correct e); cbn [negb length]; repeat split; lia.
Qed.

Lemma step_scoreAgrees env st ev :
  fromButtons ev = true -> scoreAgrees (score st) ->
  scoreAgrees (score (step env st ev)).
Proof.
  intros Hb H.
  assert (scoreAgrees (mkScore 0 0 0 0 0 [])) as Hz by (repeat split; reflexivity).
  destruct env as [[|] ok], st as [s c a qu [n1 n2 n3 n4 n5 h] se tok w tk tm al wl], ev;
    cbn [score] in H; cbn [fromButtons] in Hb; run_handlers; break_match;
    try exact H; try exact Hz.
  all: try match goal with
       | |- scoreAgrees (mkScore _ _ _ _ _ (_ ++ [?e])) =>
           pose proof (scoreAgrees_record (mkScore n1 n2 n3 n4 n5 h) e H) as R;
           cbn [ev_correct asked correct incorrect streak longest history] in R;
           exact R
       end.
  all: exfalso.
  all: match goal with
       | E : index IVL_ALL ?i = None |- _ =>
           destruct (index_Some IVL_ALL i) as [x [Hx _]];
           [rewrite IVL_ALL_length; apply andb_true_iff in Hb; destruct Hb as [B1 B2];
            apply Z.leb_le in B1; apply Z.ltb_lt in B2; lia
           | congruence]
       end.
Qed.

Lemma run_scoreAgrees env evs st :
  forallb fromButtons evs = true -> scoreAgrees (score st) ->
  scoreAgrees (score (run env evs st)).
Proof.
  revert st; induction evs as [| ev evs IH]; intros st Hb H;
    cbn [run fold_left]; [exact H |].
  cbn [forallb] in Hb. apply andb_true_iff in Hb. destruct Hb as [Hb Hb'].
  apply IH; [exact Hb' |]. now apply step_scoreAgrees.
Qed.

(** X9.  In a session whose answer clicks come from the twelve buttons, the
    counters always agree with the history: [asked] is its length,
    [correct] and [incorrect] count its correct and incorrect entries and
    add up to [asked].  In any session the longest streak shown by the
    score panel, [max(longest, streak)], is [longest] itself. *)
Theorem score_counts_history env evs :
  (forallb fromButtons evs = true ->
   scoreAgrees (score (run env evs (init env bootState)))) /\
  shownLongest (score (run env evs (init env bootState))) =
    longest (score (run env evs (init env bootState))).
Proof.
  split.
  - intros Hb. apply run_scoreAgrees; [exact Hb |].
    destruct env as [[|] ok]; repeat split; reflexivity.
  - assert (scoreInv (score (run env evs (init env bootState)))) as [Hs Hl].
    { apply run_scoreInv. destruct env as [[|] ok]; split; reflexivity. }
    unfold shownLongest. rewrite Hs, Hl.
    pose proof (trailingRun_le_runningMax
                  (outcomes (score (run env evs (init env bootState))))). lia.
Qed.

Lemma score_counts_history_witness :
  scoreAgrees
    (score (run envAllSamples
              [ClickApply (JStr "12") "random" 48 (1 # 2) (1 # 2);
               Continue 0 0; Continue 0 0; Continue 0 0; Fire 0;
               ClickAnswer 6 "2024-01-01T00:00:00.000Z"]
              (init envAllSamples bootState))).
Proof.
  apply (proj1 (score_counts_history envAllSamples
           [ClickApply (JStr "12") "random" 48 (1 # 2) (1 # 2);
            Continue 0 0; Continue 0 0; Continue 0 0; Fire 0;
            ClickAnswer 6 "2024-01-01T00:00:00.000Z"])).
  vm_compute. reflexivity.
Defined.

(** X10.  The flags [updateControls] computes agree with the guards of the
    handlers.  The answer buttons are enabled exactly in [AwaitingAnswer],
    and while they are disabled [onAnswer] changes nothing; the next button
    is enabled exactly in [Locked], and while it is disabled its handler
    changes nothing; while replay is disabled its handler changes nothing,
    and while it is enabled a click takes a new play token and disables
    answering; download is disabled exactly before the game is started. *)
Theorem controls_match_guards env st :
  (answersDisabled (updateControls st) = false <-> phase st = AwaitingAnswer) /\
  (answersDisabled (updateControls st) = true ->
     forall i ts, onAnswer i ts st = Returned st) /\
  (nextDisabled (updateControls st) = false <-> phase st = Locked) /\
  (nextDisabled (updateControls st) = true ->
     forall r1 r2, nextBtn_click r1 r2 st = Returned st) /\
  (replayDisabled (updateControls st) = true -> replayBtn_click env st = st) /\
  (replayDisabled (updateControls st) = false ->
     lastPlayToken (replayBtn_click env st) = jsIncr (lastPlayToken st) /\
     canAnswer (replayBtn_click env st) = false /\
     answersDisabled (updateControls (replayBtn_click env st)) = true) /\
  (downloadDisabled (updateControls st) = true <-> phase st = NotStarted).
Proof.
  unfold updateControls, phase.
  cbn [answersDisabled nextDisabled replayDisabled downloadDisabled].
  split; [| split; [| split; [| split; [| split; [| split]]]]].
  - destruct (started st), (awaitingNext st), (canAnswer st), (question st);
      cbn; split; congruence.
  - intros H i ts. apply onAnswer_rejected.
    destruct (started st), (awaitingNext st), (canAnswer st), (question st);
      cbn in H; try discriminate H; auto.
  - destruct (started st), (awaitingNext st), (canAnswer st), (question st);
      cbn; split; congruence.
  - intros H r1 r2. unfold nextBtn_click. now rewrite H.
  - intros H. apply replayBtn_click_noop.
    destruct (started st), (question st); cbn in H; try discriminate H; auto.
  - intros H.
    assert (started st = true /\ question st <> None) as [Hs Hq].
    { destruct (started st), (question st); cbn in H; try discriminate H;
        split; congruence. }
    unfold replayBtn_click. rewrite H.
    destruct (playCurrentInterval_takes_token env (negb (awaitingNext st)) 0 st Hs Hq)
      as (H1 & _ & _ & H4).
    rewrite H1, H4. split; [reflexivity |]. split; [reflexivity |].
    cbn [negb]. rewrite orb_true_r. reflexivity.
  - destruct (started st), (awaitingNext st), (canAnswer st), (question st);
      cbn; split; congruence.
Qed.

Lemma controls_match_guards_witness :
  onAnswer 3 "t" roundPlaying = Returned roundPlaying /\
  nextBtn_click 0 0 roundAwaiting = Returned roundAwaiting /\
  replayBtn_click envAllSamples bootState = bootState.
Proof.
  split; [| split].
  - apply (proj1 (proj2 (controls_match_guards envAllSamples roundPlaying))).
    vm_compute. reflexivity.
  - apply (proj1 (proj2 (proj2 (proj2 (controls_match_guards envAllSamples roundAwaiting))))).
    vm_compute. reflexivity.
  - apply (proj1 (proj2 (proj2 (proj2 (proj2
             (controls_match_guards envAllSamples bootState)))))).
    vm_compute. reflexivity.
Defined.


(** ** Invariants of a session *)

Lemma pickQuestion_valid r1 r2 s q :
  pickQuestion r1 r2 s = Normal (Some q) ->
  In (interval q) (activeIntervals s) /\
  inRange (rootPitch q) /\ inRange (highPitch q) /\
  highPitch q = rootPitch q + semitones (interval q).
Proof.
  intros H. split; [eapply pickQuestion_active; exact H |].
  revert H. unfold pickQuestion.
  destruct (index (activeIntervals s) _) as [itv |]; [| discriminate].
  set (root := if String.eqb (rootMode s) "random" then _ else _).
  destruct ((root <? MIN_PITCH) || (MAX_PITCH <? root)) eqn:E1; [discriminate |].
  destruct ((root + semitones itv <? MIN_PITCH) || (MAX_PITCH <? root + semitones itv)) eqn:E2;
    [discriminate |].
  intros H. injection H as <-. cbn [rootPitch highPitch interval].
  apply orb_false_iff in E1, E2. destruct E1 as [A B], E2 as [C D].
  apply Z.ltb_ge in A, B, C, D. unfold inRange. repeat split; assumption.
Qed.

Lemma activeIntervals_incl s itv :
  In itv (activeIntervals s) -> In itv IVL_ALL.
Proof.
  rewrite activeIntervals_clamped. intros H.
  rewrite <- (firstn_skipn (Z.to_nat (clampInt (intervalCount s) 2 12)) IVL_ALL).
  apply in_or_app. now left.
Qed.

Lemma index_In {A : Type} (l : list A) i a : index l i = Some a -> In a l.
Proof.
  unfold index. destruct (i <? 0); [discriminate |]. apply nth_error_In.
Qed.

Lemma step_sessionInv env st ev : sessionInv st -> sessionInv (step env st ev).
Proof.
  unfold sessionInv, questionValid.
  intros (Hs & Hq & Hh).
  assert (forall count mode root,
            (mode = "fixed" \/ mode = "random")%string ->
            settingsOk (mkSettings (JNum (clampInt count 2 (Z.of_nat (length IVL_ALL))))
                          mode root)) as Hnew.
  { intros count mode root Hm. rewrite IVL_ALL_length.
    split; cbn [intervalCount rootMode]; [| exact Hm].
    eexists. split; [reflexivity | apply clampInt_range; lia]. }
  destruct env as [[|] ok], st as [s c a qu [n1 n2 n3 n4 n5 h] se tok w tk tm al wl], ev;
    cbn [settings question score history] in Hs, Hq, Hh;
    run_handlers; break_match; subst;
    repeat match goal with
           | E : pickQuestion _ _ _ = Normal (Some _) |- _ =>
               apply pickQuestion_valid in E
           end;
    (split; [| split]);
    first [ assumption
          | exact I
          | apply Forall_nil
          | apply Hnew; auto
          | idtac ].
  all: apply Forall_app; split; [assumption |];
    constructor; [| constructor]; destruct Hs as [Hs1 Hs2];
    destruct Hq as (Hq1 & _);
    repeat split; cbn [ev_intervalCount ev_mode ev_guess ev_interval ev_correct];
    try assumption; try reflexivity; try (symmetry; assumption);
    try (apply in_map; eapply index_In; eassumption);
    try (apply in_map; eapply activeIntervals_incl; eassumption).
Qed.

Lemma run_sessionInv env evs st : sessionInv st -> sessionInv (run env evs st).
Proof.
  revert st; induction evs as [| ev evs IH]; intros st H; cbn [run fold_left];
    [exact H |].
  apply IH. now apply step_sessionInv.
Qed.

Lemma init_sessionInv env : sessionInv (init env bootState).
Proof.
  assert (settingsOk (mkSettings (JNum 12) "random" (pitchFromPcOct 0 4))) as H.
  { split; cbn [intervalCount rootMode]; [| now right].
    exists 12. split; [reflexivity | lia]. }
  destruct env as [[|] ok]; unfold sessionInv, questionValid; run_handlers;
    (split; [exact H |]); (split; [exact I | apply Forall_nil]).
Qed.

(** X11.  In every state a session can reach, whatever values the form
    sends and whatever the order of events: the stored interval count is an
    integer of [2..12] and the root mode is "fixed" or "random"; the
    question, if there is one, asks for an active interval between two
    pitches of C3..C5 that are its semitones apart; and every history entry
    records such settings, two catalog codes, and is marked correct exactly
    when the two codes are equal. *)
Theorem session_invariant env evs :
  let st := run env evs (init env bootState) in
  settingsOk (settings st) /\
  (forall q, question st = Some q ->
     In (interval q) (activeIntervals (settings st)) /\
     inRange (rootPitch q) /\ inRange (highPitch q) /\
     highPitch q = rootPitch q + semitones (interval q)) /\
  Forall eventOk (history (score st)).
Proof.
  intros st.
  destruct (run_sessionInv env evs _ (init_sessionInv env)) as (H1 & H2 & H3).
  fold st in H1, H2, H3.
  split; [exact H1 |]. split; [| exact H3].
  intros q Hq. unfold questionValid in H2. now rewrite Hq in H2.
Qed.


Lemma session_invariant_witness :
  Forall eventOk
    (history (score (run envAllSamples
       [ClickApply (JStr "12") "random" 48 (1 # 2) (1 # 2);
        Continue 0 0; Continue 0 0; Continue 0 0; Fire 0;
        ClickAnswer 3 "2024-01-01T00:00:00.000Z"]
       (init envAllSamples bootState)))).
Proof.
  exact (proj2 (proj2 (session_invariant envAllSamples
       [ClickApply (JStr "12") "random" 48 (1 # 2) (1 # 2);
        Continue 0 0; Continue 0 0; Continue 0 0; Fire 0;
        ClickAnswer 3 "2024-01-01T00:00:00.000Z"]))).
Defined.

Lemma findIndex_code j itv :
  index IVL_ALL j = Some itv -> markCorrectButton (code itv) = j.
Proof.
  intros Hj. unfold markCorrectButton, findIndex.
  destruct (IVL_ALL_semitones j itv Hj) as [_ Hr].
  assert (existsb (fun x => String.eqb (code x) (code itv)) IVL_ALL = true) as Ex.
  { apply existsb_exists. exists itv. split; [eapply index_In; exact Hj |].
    apply String.eqb_refl. }
  destruct (findIndexFrom_found _ IVL_ALL 0 Ex) as [a [Hn [Hf Hle]]].
  rewrite Z.sub_0_r in Hn. apply String.eqb_eq in Hf.
  set (k := findIndexFrom (fun x => String.eqb (code x) (code itv)) IVL_ALL 0) in *.
  unfold index in Hj.
  replace (j <? 0) with false in Hj by (symmetry; apply Z.ltb_ge; lia).
  pose proof (proj1 (NoDup_nth_error (map code IVL_ALL)) IVL_codes_NoDup
                (Z.to_nat k) (Z.to_nat j)) as Hnd.
  rewrite !nth_error_map, Hn, Hj in Hnd. cbn [option_map] in Hnd.
  assert (Z.to_nat k = Z.to_nat j) as E.
  { apply Hnd; [| congruence].
    rewrite length_map. apply nth_error_Some. congruence. }
  lia.
Qed.

(** X12.  In every state a session can reach with a question, the button
    [markCorrectButton] finds for the question's interval code is the
    button of that interval and is one of the displayed ones; and an answer
    from one of the twelve buttons compares equal to the question's code
    exactly when it is that button. *)
Theorem correct_button_is_visible env evs q :
  let st := run env evs (init env bootState) in
  question st = Some q ->
  let j := markCorrectButton (code (interval q)) in
  index IVL_ALL j = Some (interval q) /\
  answerVisible (settings st) j = true /\
  (forall i chosen, index IVL_ALL i = Some chosen ->
     (String.eqb (code chosen) (code (interval q)) = true <-> i = j)).
Proof.
  intros st Hq j.
  destruct (run_sessionInv env evs _ (init_sessionInv env)) as (_ & Hv & _).
  fold st in Hv. unfold questionValid in Hv. rewrite Hq in Hv.
  destruct Hv as (Hact & _).
  rewrite activeIntervals_clamped in Hact.
  apply In_nth_error in Hact. destruct Hact as [n Hn].
  assert (n < Z.to_nat (clampInt (intervalCount (settings st)) 2 12))%nat as Hlt.
  { destruct (Nat.lt_ge_cases n (Z.to_nat (clampInt (intervalCount (settings st)) 2 12)))
      as [L | G]; [exact L |].
    assert (nth_error (firstn (Z.to_nat (clampInt (intervalCount (settings st)) 2 12))
                         IVL_ALL) n <> None) as Hne by congruence.
    apply nth_error_Some in Hne. rewrite length_firstn in Hne. lia. }
  rewrite nth_error_firstn in Hn.
  replace (n <? _)%nat with true in Hn by (symmetry; apply Nat.ltb_lt; exact Hlt).
  assert (index IVL_ALL (Z.of_nat n) = Some (interval q)) as Hix.
  { unfold index. replace (Z.of_nat n <? 0) with false
      by (symmetry; apply Z.ltb_ge; lia).
    now rewrite Nat2Z.id. }
  assert (j = Z.of_nat n) as Ej by (apply findIndex_code; exact Hix).
  rewrite Ej. split; [exact Hix |]. split.
  - unfold answerVisible. rewrite IVL_ALL_length. apply Z.ltb_lt. lia.
  - intros i chosen Hi. split.
    + intros E. apply String.eqb_eq in E.
      rewrite <- (findIndex_code i chosen Hi), E. exact Ej.
    + intros ->. rewrite Hix in Hi. injection Hi as <-. apply String.eqb_refl.
Qed.

Lemma correct_button_is_visible_witness :
  index IVL_ALL (markCorrectButton "P5") = Some (mkInterval "P5" "perfect fifth" 7) /\
  answerVisible
    (settings (run envAllSamples
                 [ClickApply (JStr "12") "random" 48 (1 # 2) (1 # 2)]
                 (init envAllSamples bootState)))
    (markCorrectButton "P5") = true.
Proof.
  destruct (correct_button_is_visible envAllSamples
              [ClickApply (JStr "12") "random" 48 (1 # 2) (1 # 2)]
              (mkQuestion 45 52 (mkInterval "P5" "perfect fifth" 7)))
    as (H1 & H2 & _); [vm_compute; reflexivity |].
  split; [exact H1 | exact H2].
Defined.

(** ** Starting a round *)

Lemma pickQuestion_no_error r1 r2 s :
  (0 <= r1)%Q -> (r1 < 1)%Q -> exists o, pickQuestion r1 r2 s = Normal o.
Proof.
  intros H0 H1.
  destruct (pickQuestion_interval r1 s H0 H1) as (i & itv & _ & _ & _ & _ & Hact).
  unfold pickQuestion. rewrite Hact. cbv zeta.
  destruct (_ || _); [eauto |]. destruct (_ || _); eauto.
Qed.

(** X13.  The next button acts only in a locked round.  There it clears
    [awaitingNext] and [canAnswer], replaces the question by what
    [pickQuestion] returns for the stored settings and waits for an
    animation frame, leaving score, settings, play token and timers as they
    are; the round is [Listening].  When the frame arrives and there is a
    question, [playCurrentInterval] takes the next token and starts a
    playback that may enable answers, delayed by [ROUND_START_DELAY_SEC]. *)
Theorem next_starts_round env r1 r2 st :
  (started st = false \/ awaitingNext st = false ->
   nextBtn_click r1 r2 st = Returned st) /\
  (started st = true -> awaitingNext st = true -> (0 <= r1)%Q -> (r1 < 1)%Q ->
   exists st',
     nextBtn_click r1 r2 st = Returned st' /\
     pickQuestion r1 r2 (settings st) = Normal (question st') /\
     canAnswer st' = false /\ awaitingNext st' = false /\ phase st' = Listening /\
     score st' = score st /\ settings st' = settings st /\
     lastPlayToken st' = lastPlayToken st /\ timers st' = timers st /\
     tasks st' = tasks st ++ [AwaitFrame] /\
     (question st' <> None ->
      let st2 := startNewRound_afterFrame env st' in
      lastPlayToken st2 = jsIncr (lastPlayToken st) /\
      tasks st2 =
        tasks st' ++ [AwaitResume (jsIncr (lastPlayToken st)) true ROUND_START_DELAY_SEC] /\
      phase st2 = Listening)).
Proof.
  split.
  - intros [H | H]; unfold nextBtn_click; rewrite H; cbn [negb orb];
      [reflexivity | now rewrite orb_true_r].
  - intros Hs Ha H0 H1.
    destruct (pickQuestion_no_error r1 r2 (settings st) H0 H1) as [o Ho].
    unfold nextBtn_click, startNewRound. rewrite Hs, Ha. cbn [negb orb].
    cbn [settings set_canAnswer set_awaitingNext]. rewrite Ho.
    eexists. split; [reflexivity |].
    destruct env as [[|] ok], st as [s c a qu sc se tok w tk tm al wl];
      cbn [started awaitingNext] in Hs, Ha; subst; unfold phase; run_handlers;
      (split; [reflexivity |]); repeat (split; [reflexivity |]);
      intros Hq; (destruct o as [q |]; [| congruence]); run_handlers;
      repeat split; reflexivity.
Qed.

Lemma next_starts_round_witness :
  nextBtn_click 0 0 roundAwaiting = Returned roundAwaiting /\
  exists st',
    nextBtn_click (3 # 4) (1 # 4) roundLocked = Returned st' /\
    phase st' = Listening /\ score st' = score roundLocked /\
    tasks st' = tasks roundLocked ++ [AwaitFrame].
Proof.
  split.
  - apply (proj1 (next_starts_round envAllSamples 0 0 roundAwaiting)).
    right. vm_compute. reflexivity.
  - assert (started roundLocked = true) as A1 by (vm_compute; reflexivity).
    assert (awaitingNext roundLocked = true) as A2 by (vm_compute; reflexivity).
    assert (0 <= 3 # 4)%Q as A3 by discriminate.
    assert (3 # 4 < 1)%Q as A4 by reflexivity.
    pose proof (proj2 (next_starts_round envAllSamples (3 # 4) (1 # 4) roundLocked)
                  A1 A2 A3 A4) as H.
    destruct H as (st' & H1 & _ & _ & _ & H5 & H6 & _ & _ & _ & H10 & _).
    exists st'. repeat split; assumption.
Defined.




(** ** The mini keyboard *)

Example keyboard_A3_E4 :
  let kb := buildMiniKeyboard [45; 52] 45 52 in
  (viewW kb, viewH kb) = (406, 108) /\
  filter kFirst (whiteKeys kb ++ blackKeys kb) = [expectedKey 36 45 45 52] /\
  filter kSecond (whiteKeys kb ++ blackKeys kb) = [expectedKey 36 52 45 52] /\
  map kLabel (filter (fun k => negb (isNone (kLabel k))
                               && negb (String.eqb (orUndefined (kLabel k)) ""))
                (whiteKeys kb)) = [Some "C3"; Some "C4"; Some "C5"]%string.
Proof. vm_compute. repeat split; reflexivity. Qed.

Lemma keyboardShows_all :
  Forall (fun r => Forall (fun h => r < h -> keyboardShows r h)
                     (zrange MIN_PITCH MAX_PITCH))
    (zrange MIN_PITCH MAX_PITCH).
Proof.
  change (zrange MIN_PITCH MAX_PITCH)
    with [36; 37; 38; 39; 40; 41; 42; 43; 44; 45; 46; 47; 48; 49; 50; 51; 52;
          53; 54; 55; 56; 57; 58; 59; 60].
  repeat (apply Forall_cons; [| try apply Forall_nil]).
  all: repeat (apply Forall_cons; [| try apply Forall_nil]).
  all: intros H;
    first [ discriminate H
          | unfold keyboardShows; vm_compute;
            repeat split;
            first [ reflexivity | discriminate
                  | (left; reflexivity) | (right; reflexivity) ] ].
Qed.

(** X15.  For the two notes of any question (a root and a higher pitch, both
    in C3..C5) the keyboard drawn after an answer is a two-octave window
    that starts on C3 or C4 and contains both notes.  It has fifteen white
    keys side by side and ten black keys, one key for each pitch of the
    window at the position that pitch has on a piano; exactly one key is
    marked as the first note, the root's, and exactly one as the second, the
    higher pitch's. *)
Theorem keyboard_shows_both_notes root high :
  inRange root -> inRange high -> root < high -> keyboardShows root high.
Proof.
  intros Hr Hh Hlt.
  pose proof keyboardShows_all as H.
  rewrite Forall_forall in H.
  specialize (H root (proj2 (in_zrange _ _ _) Hr)).
  rewrite Forall_forall in H.
  exact (H high (proj2 (in_zrange _ _ _) Hh) Hlt).
Qed.

Lemma keyboard_shows_both_notes_witness : keyboardShows 49 58.
Proof.
  apply keyboard_shows_both_notes; unfold inRange; vm_compute;
    try reflexivity; split; discriminate.
Defined.


(** ** Height reports and scroll forwarding *)

Example frame_gesture :
  Frame.outbox
    (Frame.run
       [Frame.TouchStart [(10, 100)%Q] false 5 0;
        Frame.TouchMove [(11, 90)%Q] false 21 0;
        Frame.TouchMove [(11, 80)%Q] false 37 0;
        Frame.TouchEnd] Frame.initial) =
  [Frame.ScrollTopDelta (- ((90 - 100) * 6));
   Frame.ScrollTopDelta (- ((80 - 90) * 6));
   Frame.ScrollTopVelocity
     (Qmax (- (55 # 10))
        (Qmin (55 # 10)
           ((0 * (75 # 100) + - ((90 - 100) * 6) / (21 - 5) * (25 # 100)) * (75 # 100) +
            - ((80 - 90) * 6) / (37 - 21) * (25 # 100))))].
Proof. vm_compute. reflexivity. Qed.

(** [postHeightNow] goes past the observer's [lastHeight]: the height the
    observer has just reported is posted again. *)
Example frame_height_repeated :
  Frame.outbox
    (Frame.run [Frame.Resize [(1201 # 2)%Q]; Frame.PostHeightNow 601 (Some 580)]
       Frame.initial) =
  [Frame.IframeHeight 601; Frame.IframeHeight 601].
Proof. vm_compute. reflexivity. Qed.

Module FrameFacts.
Import Frame.

Lemma heightsOf_app a b : heightsOf (a ++ b) = heightsOf a ++ heightsOf b.
Proof. unfold heightsOf. apply flat_map_app. Qed.

Lemma last_cons (l : list Z) x d : last (x :: l) d = last l x.
Proof.
  revert x d; induction l as [| y l IH]; intros x d; [reflexivity |].
  change (last (x :: y :: l) d) with (last (y :: l) d).
  now rewrite !IH.
Qed.

Lemma last_app_default (a b : list Z) d : last (a ++ b) d = last b (last a d).
Proof.
  revert d; induction a as [| x a IH]; intros d; [reflexivity |].
  change ((x :: a) ++ b) with (x :: (a ++ b)).
  now rewrite !last_cons, IH.
Qed.

Lemma changesOnly_app prev a b :
  changesOnly prev a -> changesOnly (last a prev) b -> changesOnly prev (a ++ b).
Proof.
  revert prev; induction a as [| x a IH]; intros prev Ha Hb; cbn [app];
    [exact Hb |].
  destruct Ha as [Hx Ha]. split; [exact Hx |].
  apply IH; [exact Ha |]. rewrite last_cons in Hb. exact Hb.
Qed.

Lemma reportsFrom_refl s : reportsFrom s s.
Proof. exists []. rewrite app_nil_r. repeat split. Qed.

Lemma reportsFrom_trans s1 s2 s3 :
  reportsFrom s1 s2 -> reportsFrom s2 s3 -> reportsFrom s1 s3.
Proof.
  intros (m1 & O1 & C1 & L1) (m2 & O2 & C2 & L2).
  exists (m1 ++ m2). rewrite heightsOf_app. split; [| split].
  - rewrite O2, O1. now rewrite app_assoc.
  - apply changesOnly_app; [exact C1 |]. rewrite <- L1. exact C2.
  - rewrite last_app_default, <- L1. exact L2.
Qed.

Lemma reportsFrom_scroll s s' m :
  isScroll m = true -> outbox s' = outbox s ++ [m] ->
  lastHeight s' = lastHeight s -> reportsFrom s s'.
Proof.
  intros Hm Ho Hl. exists [m]. split; [exact Ho |].
  destruct m; try discriminate Hm; cbn; split; auto.
Qed.

Lemma reportsFrom_same s s' :
  outbox s' = outbox s -> lastHeight s' = lastHeight s -> reportsFrom s s'.
Proof.
  intros Ho Hl. exists []. rewrite app_nil_r. cbn. repeat split; assumption.
Qed.

Lemma onResize_reportsFrom hs s : reportsFrom s (onResize hs s).
Proof.
  unfold onResize. revert s; induction hs as [| h hs IH]; intros s;
    cbn [fold_left]; [apply reportsFrom_refl |].
  eapply reportsFrom_trans; [| apply IH].
  destruct (Qceiling h =? lastHeight s) eqn:E; cbn [negb];
    [apply reportsFrom_refl |].
  apply Z.eqb_neq in E.
  exists [IframeHeight (Qceiling h)]. cbn. repeat split; auto.
Qed.

Lemma step_reportsFrom s ev :
  isPostHeightNow ev = false -> reportsFrom s (step s ev).
Proof.
  intros Hp.
  destruct ev as [hs | t i ts pn | t sc ts pn | | sc d | dh bh];
    try discriminate Hp; cbn [step].
  - apply onResize_reportsFrom.
  - unfold touchstart. destruct t as [| [x y] [| ? ?]];
      try apply reportsFrom_refl. now apply reportsFrom_same.
  - unfold touchmove. destruct t as [| [x y] [| ? ?]]; try apply reportsFrom_refl.
    destruct sc; [apply reportsFrom_refl |]. cbv zeta.
    destruct (lockedMode s) as [[|] |]; cbn [lockedMode];
      repeat match goal with
             | |- context [if ?b then _ else _] => destruct b
             end;
      cbn [lockedMode];
      first [ now apply reportsFrom_same
            | eapply reportsFrom_scroll; [| reflexivity | reflexivity]; reflexivity ].
  - unfold endGesture.
    destruct (lockedMode s) as [[|] |]; try (now apply reportsFrom_same).
    destruct (Qlt_le_dec _ _); [| now apply reportsFrom_same].
    eapply reportsFrom_scroll; [| reflexivity | reflexivity]; reflexivity.
  - unfold wheel. destruct sc; [apply reportsFrom_refl |].
    eapply reportsFrom_scroll; [| reflexivity | reflexivity]; reflexivity.
Qed.

Lemma run_reportsFrom evs s :
  forallb (fun ev => negb (isPostHeightNow ev)) evs = true ->
  reportsFrom s (run evs s).
Proof.
  revert s; induction evs as [| ev evs IH]; intros s H; cbn [run fold_left];
    [apply reportsFrom_refl |].
  cbn [forallb] in H. apply andb_true_iff in H. destruct H as [H1 H2].
  apply negb_true_iff in H1.
  eapply reportsFrom_trans; [apply step_reportsFrom; exact H1 | now apply IH].
Qed.

End FrameFacts.

(** X16.  The resize observer posts a height only when its ceiling differs
    from [lastHeight], and nothing else writes [lastHeight].  So over any
    stretch of events in which [postHeightNow] is not called, from any
    state: no two consecutive height messages of the stretch carry the same
    height, the first differs from [lastHeight] at its start, and
    [lastHeight] at its end is the height last posted (unchanged when none
    was).  [postHeightNow] itself posts the larger of the two scroll heights
    whatever [lastHeight] is, and leaves [lastHeight] alone, so its messages
    can repeat a height. *)
Theorem height_reports_change_only s evs :
  (forallb (fun ev => negb (Frame.isPostHeightNow ev)) evs = true ->
   exists ms,
     Frame.outbox (Frame.run evs s) = Frame.outbox s ++ ms /\
     Frame.changesOnly (Frame.lastHeight s) (Frame.heightsOf ms) /\
     Frame.lastHeight (Frame.run evs s) =
       last (Frame.heightsOf ms) (Frame.lastHeight s)) /\
  (forall d b,
     let s' := Frame.step s (Frame.PostHeightNow d b) in
     Frame.outbox s' =
       Frame.outbox s ++
       [Frame.IframeHeight (Z.max d (match b with Some x => x | None => 0 end))] /\
     Frame.lastHeight s' = Frame.lastHeight s).
Proof.
  split.
  - intros H. exact (FrameFacts.run_reportsFrom evs s H).
  - intros d b. split; reflexivity.
Qed.

Lemma height_reports_change_only_witness :
  exists ms,
    Frame.outbox
      (Frame.run
         [Frame.Resize [(1201 # 2)%Q; (1203 # 2)%Q; 700%Q]; Frame.TouchEnd;
          Frame.Resize [700%Q]]
         (Frame.step Frame.initial (Frame.PostHeightNow 601 None))) =
    Frame.outbox (Frame.step Frame.initial (Frame.PostHeightNow 601 None)) ++ ms /\
    Frame.changesOnly 0 (Frame.heightsOf ms).
Proof.
  destruct (proj1 (height_reports_change_only
                     (Frame.step Frame.initial (Frame.PostHeightNow 601 None))
                     [Frame.Resize [(1201 # 2)%Q; (1203 # 2)%Q; 700%Q]; Frame.TouchEnd;
                      Frame.Resize [700%Q]]) eq_refl)
    as (ms & H1 & H2 & _).
  exists ms. split; [exact H1 | exact H2].
Defined.

Lemma touchmove_locked_x t sc ts pn s :
  Frame.lockedMode s = Some Frame.AxisX -> Frame.touchmove t sc ts pn s = s.
Proof.
  intros H. unfold Frame.touchmove.
  destruct t as [| [x y] [| ? ?]]; try reflexivity.
  destruct sc; [reflexivity |]. rewrite H. cbv zeta.
  destruct s; cbn in *. subst. reflexivity.
Qed.

Lemma run_moves_locked_x moves s :
  forallb isTouchMove moves = true ->
  Frame.lockedMode s = Some Frame.AxisX -> Frame.run moves s = s.
Proof.
  revert s; induction moves as [| ev moves IH]; intros s Hm Hl;
    cbn [Frame.run fold_left]; [reflexivity |].
  cbn [forallb] in Hm. apply andb_true_iff in Hm. destruct Hm as [H1 H2].
  destruct ev; try discriminate H1. cbn [Frame.step].
  rewrite touchmove_locked_x by exact Hl. now apply IH.
Qed.

(** X17.  A touch that starts on a button, link or form control locks the
    gesture to the horizontal axis, and so does a first decisive move that
    is more horizontal than vertical; from then until the finger is lifted
    no move posts anything or changes any variable, and lifting the finger
    posts no velocity. *)
Theorem horizontal_gesture_is_silent s moves :
  forallb isTouchMove moves = true ->
  (forall x y ts pn,
     Frame.lockedMode (Frame.touchstart [(x, y)] true ts pn s) = Some Frame.AxisX /\
     Frame.outbox
       (Frame.run (moves ++ [Frame.TouchEnd]) (Frame.touchstart [(x, y)] true ts pn s)) =
     Frame.outbox s) /\
  (Frame.lockedMode s = Some Frame.AxisX ->
     Frame.run moves s = s /\
     Frame.outbox (Frame.run (moves ++ [Frame.TouchEnd]) s) = Frame.outbox s /\
     Frame.lockedMode (Frame.run (moves ++ [Frame.TouchEnd]) s) = None) /\
  (forall x y ts pn,
     Frame.lockedMode s = None ->
     (Qabs (y - Frame.startY s) + 4 < Qabs (x - Frame.startX s))%Q ->
     Frame.lockedMode (Frame.touchmove [(x, y)] false ts pn s) = Some Frame.AxisX /\
     Frame.outbox (Frame.touchmove [(x, y)] false ts pn s) = Frame.outbox s).
Proof.
  intros Hm.
  assert (forall s', Frame.lockedMode s' = Some Frame.AxisX ->
            Frame.run (moves ++ [Frame.TouchEnd]) s' = Frame.endGesture s') as Hrun.
  { intros s' Hl. unfold Frame.run. rewrite fold_left_app.
    change (fold_left Frame.step moves s') with (Frame.run moves s').
    rewrite (run_moves_locked_x moves s' Hm Hl). reflexivity. }
  split; [| split].
  - intros x y ts pn.
    assert (Frame.lockedMode (Frame.touchstart [(x, y)] true ts pn s) = Some Frame.AxisX)
      as Hl by reflexivity.
    split; [exact Hl |]. rewrite Hrun by exact Hl.
    unfold Frame.endGesture. rewrite Hl. reflexivity.
  - intros Hl. split; [now apply run_moves_locked_x |].
    rewrite Hrun by exact Hl. unfold Frame.endGesture. rewrite Hl.
    split; reflexivity.
  - intros x y ts pn Hl Hx. unfold Frame.touchmove. rewrite Hl. cbv zeta.
    destruct (Qlt_le_dec (Qabs (x - Frame.startX s) + 4) (Qabs (y - Frame.startY s)))
      as [L | L].
    + exfalso.
      pose proof (Qabs_nonneg (x - Frame.startX s)).
      pose proof (Qabs_nonneg (y - Frame.startY s)). lra.
    + destruct (Qlt_le_dec (Qabs (y - Frame.startY s) + 4) (Qabs (x - Frame.startX s)))
        as [L' | L']; [split; reflexivity | lra].
Qed.

Lemma horizontal_gesture_is_silent_witness :
  Frame.outbox
    (Frame.run ([Frame.TouchMove [(0, 90)%Q] false 16 0] ++ [Frame.TouchEnd])
       (Frame.touchstart [(0, 10)%Q] true 1 0 Frame.initial)) =
  Frame.outbox Frame.initial.
Proof.
  apply (proj1 (horizontal_gesture_is_silent Frame.initial
                  [Frame.TouchMove [(0, 90)%Q] false 16 0] eq_refl) 0 10 1 0)%Q.
Defined.

Lemma step_no_scroll s ev :
  Frame.pageScrollable ev = true ->
  Frame.lockedMode s <> Some Frame.AxisY ->
  filter Frame.isScroll (Frame.outbox s) = [] ->
  Frame.lockedMode (Frame.step s ev) <> Some Frame.AxisY /\
  filter Frame.isScroll (Frame.outbox (Frame.step s ev)) = [].
Proof.
  intros Hp Hl Ho.
  destruct ev as [hs | t i ts pn | t sc ts pn | | sc d | dh bh]; cbn [Frame.step].
  - unfold Frame.onResize. clear Hp. revert s Hl Ho.
    induction hs as [| h hs IH]; intros s Hl Ho; cbn [fold_left]; [now split |].
    apply IH.
    + destruct (negb _); [| exact Hl]. exact Hl.
    + destruct (negb _); [| exact Ho].
      unfold Frame.post. cbn [Frame.outbox].
      rewrite filter_app, Ho. reflexivity.
  - unfold Frame.touchstart. destruct t as [| [x y] [| ? ?]]; try (now split).
    cbn [Frame.lockedMode Frame.outbox]. split; [| exact Ho].
    destruct i; discriminate.
  - cbn [Frame.pageScrollable] in Hp. subst sc. unfold Frame.touchmove.
    destruct t as [| [x y] [| ? ?]]; now split.
  - unfold Frame.endGesture. cbn [Frame.lockedMode Frame.outbox].
    split; [discriminate |].
    destruct (Frame.lockedMode s) as [[|] |]; try exact Ho. congruence.
  - cbn [Frame.pageScrollable] in Hp. subst sc. unfold Frame.wheel. now split.
  - unfold Frame.postHeightNow, Frame.post. cbn [Frame.lockedMode Frame.outbox].
    split; [exact Hl |]. rewrite filter_app, Ho. reflexivity.
Qed.

(** X18.  While the page itself can scroll vertically, nothing is forwarded
    to the parent: in a session in which every touch move and wheel event
    finds the page scrollable, no scroll delta and no scroll velocity is
    ever posted, gestures never lock to the vertical axis, and the only
    messages are height reports. *)
Theorem scrollable_page_forwards_nothing evs :
  forallb Frame.pageScrollable evs = true ->
  filter Frame.isScroll (Frame.outbox (Frame.run evs Frame.initial)) = [] /\
  Frame.lockedMode (Frame.run evs Frame.initial) <> Some Frame.AxisY.
Proof.
  intros Hp.
  assert (forall s,
            Frame.lockedMode s <> Some Frame.AxisY ->
            filter Frame.isScroll (Frame.outbox s) = [] ->
            Frame.lockedMode (Frame.run evs s) <> Some Frame.AxisY /\
            filter Frame.isScroll (Frame.outbox (Frame.run evs s)) = []) as H.
  { induction evs as [| ev evs IH]; intros s Hl Ho; cbn [Frame.run fold_left];
      [now split |].
    cbn [forallb] in Hp. apply andb_true_iff in Hp. destruct Hp as [H1 H2].
    destruct (step_no_scroll s ev H1 Hl Ho) as [Hl' Ho'].
    now apply IH. }
  destruct (H Frame.initial) as [H1 H2]; [discriminate | reflexivity |].
  split; assumption.
Qed.

Lemma scrollable_page_forwards_nothing_witness :
  filter Frame.isScroll
    (Frame.outbox
       (Frame.run
          [Frame.Resize [201 # 2]; Frame.TouchStart [(0, 10)%Q] false 1 0;
           Frame.TouchMove [(0, 90)%Q] true 16 0; Frame.TouchEnd;
           Frame.Wheel true 120]
          Frame.initial)) = [].
Proof.
  apply (proj1 (scrollable_page_forwards_nothing
          [Frame.Resize [201 # 2]; Frame.TouchStart [(0, 10)%Q] false 1 0;
           Frame.TouchMove [(0, 90)%Q] true 16 0; Frame.TouchEnd;
           Frame.Wheel true 120] eq_refl)).
Defined.

Lemma capped_velocity_ok v :
  (5 # 100 < Qabs v)%Q ->
  (5 # 100 < Qabs (Qmax (- (55 # 10)) (Qmin (55 # 10) v)))%Q /\
  (Qabs (Qmax (- (55 # 10)) (Qmin (55 # 10) v)) <= 55 # 10)%Q.
Proof.
  intros Hv.
  set (m := Qmin (55 # 10) v).
  set (c := Qmax (- (55 # 10)) m).
  assert (m <= 55 # 10)%Q as M1 by apply Q.le_min_l.
  assert (m <= v)%Q as M2 by apply Q.le_min_r.
  assert (- (55 # 10) <= c)%Q as C1 by apply Q.le_max_l.
  assert (m <= c)%Q as C2 by apply Q.le_max_r.
  assert (c <= 55 # 10)%Q as C3.
  { apply Q.max_lub; [discriminate | exact M1]. }
  split.
  - assert (5 # 100 < v \/ v < - (5 # 100))%Q as [P | N].
    { revert Hv. apply Qabs_case; intros; [left | right]; lra. }
    + assert (5 # 100 < m)%Q as Hm by (apply Q.min_glb_lt; [reflexivity | exact P]).
      apply Qlt_le_trans with c; [lra | apply Qle_Qabs].
    + assert (c < - (5 # 100))%Q as Hc.
      { apply Q.max_lub_lt; [reflexivity | lra]. }
      rewrite <- Qabs_opp.
      apply Qlt_le_trans with (- c)%Q; [lra | apply Qle_Qabs].
  - apply Qabs_Qle_condition. split; assumption.
Qed.

Lemma step_velocityOk s ev :
  Forall velocityOk (Frame.outbox s) ->
  Forall velocityOk (Frame.outbox (Frame.step s ev)).
Proof.
  intros H.
  destruct ev as [hs | t i ts pn | t sc ts pn | | sc d | dh bh]; cbn [Frame.step].
  - unfold Frame.onResize. revert s H.
    induction hs as [| h hs IH]; intros s H; cbn [fold_left]; [exact H |].
    apply IH. destruct (negb _); [| exact H].
    unfold Frame.post. cbn [Frame.outbox].
    apply Forall_app. split; [exact H | repeat constructor].
  - unfold Frame.touchstart. destruct t as [| [x y] [| ? ?]]; exact H.
  - unfold Frame.touchmove. destruct t as [| [x y] [| ? ?]]; try exact H.
    destruct sc; [exact H |]. cbv zeta.
    destruct (Frame.lockedMode s) as [[|] |]; cbn [Frame.lockedMode Frame.outbox];
      repeat match goal with
             | |- context [if ?b then _ else _] => destruct b
             end;
      cbn [Frame.lockedMode Frame.outbox]; try exact H;
      unfold Frame.post; cbn [Frame.outbox];
      apply Forall_app; split; try exact H; repeat constructor.
  - unfold Frame.endGesture. cbn [Frame.outbox].
    destruct (Frame.lockedMode s) as [[|] |]; try exact H.
    destruct (Qlt_le_dec _ _) as [L | L]; [| exact H].
    unfold Frame.post. cbn [Frame.outbox].
    apply Forall_app. split; [exact H |].
    constructor; [| constructor]. cbn [velocityOk].
    now apply capped_velocity_ok.
  - unfold Frame.wheel. destruct sc; [exact H |].
    unfold Frame.post. cbn [Frame.outbox].
    apply Forall_app. split; [exact H | repeat constructor].
  - unfold Frame.postHeightNow, Frame.post. cbn [Frame.outbox].
    apply Forall_app. split; [exact H | repeat constructor].
Qed.

(** X19.  Whatever the touches, every scroll velocity posted at the end of
    a gesture is larger than 0.05 in magnitude and at most 5.5: slower
    gestures post none and faster ones are capped. *)
Theorem posted_velocity_bounded evs :
  Forall velocityOk (Frame.outbox (Frame.run evs Frame.initial)).
Proof.
  assert (forall s, Forall velocityOk (Frame.outbox s) ->
                    Forall velocityOk (Frame.outbox (Frame.run evs s))) as H.
  { induction evs as [| ev evs IH]; intros s Hs; cbn [Frame.run fold_left];
      [exact Hs |].
    apply IH. now apply step_velocityOk. }
  apply H. constructor.
Qed.


(** ** Pending continuations and timers *)

Lemma sum_app (a b : list Z) :
  fold_right Z.add 0 (a ++ b) = fold_right Z.add 0 a + fold_right Z.add 0 b.
Proof. induction a as [| x a IH]; cbn [app fold_right]; lia. Qed.

Lemma sum_removeAt {A : Type} (f : A -> Z) l i t :
  nth_error l i = Some t ->
  fold_right Z.add 0 (map f l) = fold_right Z.add 0 (map f (removeAt i l)) + f t.
Proof.
  intros H. unfold removeAt.
  apply nth_error_split in H. destruct H as (l1 & l2 & -> & <-).
  rewrite firstn_app, firstn_all, Nat.sub_diag. cbn [firstn]. rewrite app_nil_r.
  replace (skipn (S (length l1)) (l1 ++ t :: l2)) with l2.
  2:{ change (S (length l1)) with (1 + length l1)%nat.
      rewrite <- skipn_skipn, skipn_app, skipn_all, Nat.sub_diag. reflexivity. }
  rewrite !map_app, !sum_app. cbn [map fold_right]. lia.
Qed.

Lemma carries_bounds k o : 0 <= carries k o <= 1.
Proof. destruct o as [t |]; cbn [carries]; [destruct (k =? t) |]; lia. Qed.

Lemma sum_nonneg {A : Type} (f : A -> Z) l :
  (forall a, 0 <= f a) -> 0 <= fold_right Z.add 0 (map f l).
Proof.
  intros Hf. induction l as [| a l IH]; cbn [map fold_right]; [lia |].
  specialize (Hf a). lia.
Qed.

Lemma pendingWith_nonneg k st : 0 <= pendingWith k st.
Proof.
  unfold pendingWith.
  pose proof (sum_nonneg (fun t => carries k (tokenOfTask t)) (tasks st)
                (fun a => proj1 (carries_bounds k _))).
  pose proof (sum_nonneg (fun t => carries k (Some (tmToken t))) (timers st)
                (fun a => proj1 (carries_bounds k _))).
  lia.
Qed.

(** One event adds at most one pending item, and only a playback that
    starts does, with the token it takes. *)
Lemma step_pendingWith env st ev k :
  pendingWith k (step env st ev) <= pendingWith k st \/
  (pendingWith k (step env st ev) = pendingWith k st + 1 /\
   k = jsIncr (lastPlayToken st) /\
   lastPlayToken (step env st ev) = jsIncr (lastPlayToken st)).
Proof.
  unfold pendingWith.
  destruct env as [[|] ok], st as [s c a qu sc se tok w tk tm al wl], ev;
    run_handlers; break_match; subst;
    repeat match goal with
           | E : nth_error ?l ?i = Some ?t |- context [removeAt ?i ?l] =>
               match l with
               | tk => pose proof (sum_removeAt (fun x => carries k (tokenOfTask x)) l i t E)
               | tm => pose proof (sum_removeAt (fun x => carries k (Some (tmToken x))) l i t E)
               end;
               revert E
           end; intros;
    rewrite ?map_app, ?sum_app; cbn [map fold_right tokenOfTask carries tmToken] in *;
    repeat match goal with
           | |- context [if ?b then _ else _] => destruct b eqn:?
           | H : context [if ?b then _ else _] |- _ => destruct b eqn:?
           end;
    try (left; lia);
    try (right; repeat split; try lia; try reflexivity;
         match goal with
         | E : (k =? _) = true |- _ => apply Z.eqb_eq in E; exact E
         end).
Qed.

Lemma step_pendingInv env st ev :
  pendingInv st -> lastPlayToken (step env st ev) < maxExact ->
  pendingInv (step env st ev).
Proof.
  intros [H0 Hk] Hmax.
  pose proof (step_token_mono env st ev) as Hmono.
  split; [lia |]. intros k.
  destruct (Hk k) as [H1 H2].
  pose proof (pendingWith_nonneg k st) as Hn.
  destruct (step_pendingWith env st ev k) as [Hle | (Heq & Hkk & Htok)].
  - split; [lia |]. intros H. assert (1 <= pendingWith k st) as H' by lia.
    specialize (H2 H'). lia.
  - assert (lastPlayToken st < maxExact) as Hlt by lia.
    pose proof (jsIncr_lt _ Hlt) as Hinc.
    assert (pendingWith k st = 0) as Hz.
    { destruct (Z.eq_dec (pendingWith k st) 0) as [E | E]; [exact E |].
      assert (1 <= pendingWith k st) as H' by lia. specialize (H2 H'). lia. }
    split; [lia |]. intros _. rewrite Htok. lia.
Qed.

Lemma run_pendingInv env evs st :
  pendingInv st -> lastPlayToken (run env evs st) < maxExact ->
  pendingInv (run env evs st).
Proof.
  revert st. induction evs as [| ev evs IH]; intros st Hinv Hmax; [exact Hinv |].
  change (run env (ev :: evs) st) with (run env evs (step env st ev)) in *.
  apply IH; [| exact Hmax].
  apply step_pendingInv; [exact Hinv |].
  pose proof (run_token_mono env evs (step env st ev)). lia.
Qed.

Lemma init_pendingInv env : pendingInv (init env bootState).
Proof.
  destruct env as [[|] ok]; unfold pendingInv, pendingWith, bootState;
    run_handlers; (split; [lia |]); intros k; cbn [map fold_right]; lia.
Qed.

(** X20.  At any point of a session, each play token is carried by at most
    one pending item (a suspended playback or an enable-answers timer), and
    only tokens already taken are carried at all: a playback has at most
    one chance to enable the answers.  Stated while the counter is below
    2^53, where [++] still changes it. *)
Theorem one_pending_item_per_token env evs k :
  let st := run env evs (init env bootState) in
  lastPlayToken st < maxExact ->
  pendingWith k st <= 1 /\
  (1 <= pendingWith k st -> 1 <= k <= lastPlayToken st).
Proof.
  intros st Hmax.
  exact (proj2 (run_pendingInv env evs _ (init_pendingInv env) Hmax) k).
Qed.

Lemma one_pending_item_per_token_witness :
  pendingWith 2
    (run envAllSamples
       [ClickApply (JStr "12") "random" 48 (1 # 2) (1 # 2);
        Continue 0 0; Continue 0 0; Continue 0 0; ClickReplay]
       (init envAllSamples bootState)) <= 1.
Proof.
  assert (lastPlayToken
            (run envAllSamples
               [ClickApply (JStr "12") "random" 48 (1 # 2) (1 # 2);
                Continue 0 0; Continue 0 0; Continue 0 0; ClickReplay]
               (init envAllSamples bootState)) < maxExact) as A
    by (vm_compute; reflexivity).
  exact (proj1 (one_pending_item_per_token envAllSamples
       [ClickApply (JStr "12") "random" 48 (1 # 2) (1 # 2);
        Continue 0 0; Continue 0 0; Continue 0 0; ClickReplay] 2 A)).
Defined.
